(** * The artifact extractors of [scripts/main_automation.py]

    A shallow embedding of the text-processing layer of the EKS automation
    pipeline ([_extract_terraform_code] and its siblings,
    [_parse_k8s_manifests]) and of the orchestration around it
    ([_call_gemini_api], the [generate_*] steps, [run_full_pipeline]),
    followed by the properties the specification states about them. *)

From Stdlib Require Import String Ascii.
From stdpp Require Import base numbers option list gmap.

Set Warnings "-register-all,-clear-no-such-hyp".

Local Open Scope N_scope.
Local Open Scope list_scope.

(** ** Python strings

    A Python [str] is a sequence of Unicode code points; a code point is a
    number.  [lit] reads an ASCII literal of the source. *)

Definition str : Type := list N.

Definition lit (s : string) : str :=
  (fun a => N_of_ascii a) <$> list_ascii_of_string s.

(** [chr 10], written [\n] in the source. *)
Definition nl : N := 10.

(** [str.isspace] on one code point: the ASCII table of CPython
    ([\t \n \v \f \r], [0x1c]-[0x1f], space) and the Unicode characters of
    bidirectional type WS, B or S / category Zs. *)
Definition isspace (c : N) : bool :=
  ((9 <=? c) && (c <=? 13)) || ((28 <=? c) && (c <=? 32))
  || (c =? 133) || (c =? 160) || (c =? 5760)
  || ((8192 <=? c) && (c <=? 8202))
  || (c =? 8232) || (c =? 8233) || (c =? 8239) || (c =? 8287) || (c =? 12288).

Fixpoint lstrip (s : str) : str :=
  match s with
  | [] => []
  | c :: s' => if isspace c then lstrip s' else s
  end.

Definition rstrip (s : str) : str := rev (lstrip (rev s)).

(** [s.strip()] *)
Definition strip (s : str) : str := rstrip (lstrip s).

(** [s.startswith(p)] *)
Fixpoint startswith (p s : str) : bool :=
  match p, s with
  | [], _ => true
  | _ :: _, [] => false
  | a :: p', b :: s' => (a =? b) && startswith p' s'
  end.

(** The first occurrence of [p] in [s], as [s.partition(p)] cuts it: the text
    before and the text after; [None] when [p] does not occur. *)
Fixpoint find_sub (p s : str) {struct s} : option (str * str) :=
  if startswith p s then Some ([], drop (length p) s)
  else match s with
       | [] => None
       | c :: s' =>
           match find_sub p s' with
           | Some (a, b) => Some (c :: a, b)
           | None => None
           end
       end.

(** [p in s] on strings *)
Definition contains (p s : str) : bool :=
  match find_sub p s with Some _ => true | None => false end.

(** [s.split(sep)] for a non-empty separator: cut at the successive
    non-overlapping occurrences, from the left.  The recursion is on the
    rest after an occurrence, which is shorter; [n] bounds it. *)
Fixpoint split_from (n : nat) (sep s : str) : list str :=
  match find_sub sep s with
  | None => [s]
  | Some (a, b) =>
      match n with
      | O => [a; b]
      | S n' => a :: split_from n' sep b
      end
  end.

Definition split (sep s : str) : list str := split_from (length s) sep s.

(** ** Exceptions

    What the code can raise and catch.  [EndpointError] stands for whatever
    the generation endpoint raises (network, authentication, quota); its
    payload identifies the exception object. *)

Inductive exn : Type :=
| IndexError
| TypeError
| AttributeError
| KeyError
| YAMLError
| EndpointError (code : N).

Inductive result (A : Type) : Type :=
| Ok (a : A)
| Raise (e : exn).
Arguments Ok {A} a.
Arguments Raise {A} e.

Definition rbind {A B} (x : result A) (f : A -> result B) : result B :=
  match x with
  | Ok a => f a
  | Raise e => Raise e
  end.

(** [try: body except: handler] with a bare [except]. *)
Definition try_except {A} (body : result A) (handler : result A) : result A :=
  match body with
  | Ok a => Ok a
  | Raise _ => handler
  end.

#[export] Instance result_ret : MRet result := fun _ a => Ok a.
#[export] Instance result_bind : MBind result := fun _ _ f x => rbind x f.

(** [l[0]] *)
Definition item0 {A} (l : list A) : result A :=
  match l with
  | [] => Raise IndexError
  | x :: _ => Ok x
  end.

(** ** Regular expressions

    The fragment of Python's [re] syntax the patterns of the source use,
    matched the way [re] does: by backtracking, alternatives from left to
    right, [?] greedy, [.*?] lazy.  All patterns are compiled with
    [re.DOTALL], so [.] is any character. *)

Inductive regex : Type :=
| Chars (l : str)              (* literal characters *)
| Seq (a b : regex)            (* ab *)
| Alt (a b : regex)            (* a|b *)
| Opt (a : regex)              (* (?:a)? *)
| LazyDotStar                  (* .*? *)
| Group (a : regex).           (* (a), the one capture group *)

(** [lazy_star k s]: [.*?] followed by the continuation [k]: the shortest
    stretch first. *)
Fixpoint lazy_star {R} (k : str -> option R) (s : str) : option R :=
  match k s with
  | Some r => Some r
  | None =>
      match s with
      | [] => None
      | _ :: s' => lazy_star k s'
      end
  end.

(** [mt r s cap k]: match [r] at the head of [s], then go on with [k] on the
    rest and the group captured so far; [None] when every alternative
    fails. *)
Fixpoint mt {R} (r : regex) (s : str) (cap : option str)
    (k : str -> option str -> option R) : option R :=
  match r with
  | Chars l => if startswith l s then k (drop (length l) s) cap else None
  | Seq a b => mt a s cap (fun s' cap' => mt b s' cap' k)
  | Alt a b =>
      match mt a s cap k with
      | Some x => Some x
      | None => mt b s cap k
      end
  | Opt a =>
      match mt a s cap k with
      | Some x => Some x
      | None => k s cap
      end
  | LazyDotStar => lazy_star (fun s' => k s' cap) s
  | Group a =>
      mt a s cap (fun s' _ => k s' (Some (take (length s - length s') s)))
  end.

(** One match: the text of group 1 and the rest of the subject after the
    match. *)
Definition match_at (r : regex) (s : str) : option (str * str) :=
  mt r s None (fun rest cap => Some (default [] cap, rest)).

(** [re.search]: the leftmost match; also returns the subject from the start
    of the match. *)
Fixpoint search (r : regex) (s : str) : option (str * str * str) :=
  match match_at r s with
  | Some (g, rest) => Some (g, s, rest)
  | None =>
      match s with
      | [] => None
      | _ :: s' => search r s'
      end
  end.

(** [re.findall(r, s, re.DOTALL)] for a pattern with one group: the text of
    the group at each successive non-overlapping match.  After an empty
    match the scan moves on by one character. *)
Fixpoint findall_from (n : nat) (r : regex) (s : str) : list str :=
  match n with
  | O => []
  | S n' =>
      match search r s with
      | None => []
      | Some (g, from, rest) =>
          g :: (if (length rest =? length from)%nat
                then match from with
                     | [] => []
                     | _ :: t => findall_from n' r t
                     end
                else findall_from n' r rest)
      end
  end.

Definition findall (r : regex) (s : str) : list str :=
  findall_from (S (length s)) r s.

(** ** The code-fence extractors *)

Definition fence : str := lit "```".

(** [```(?:terraform|hcl)?\n(.*?)\n```] and its siblings: a fence, an optional
    language tag out of [tags], a newline, the captured body, a newline, a
    fence. *)
Definition tagged_fence (tag : regex) : regex :=
  Seq (Chars fence)
    (Seq (Opt tag)
       (Seq (Chars [nl])
          (Seq (Group LazyDotStar) (Chars (nl :: fence))))).

(** [```\n(.*?)\n```] *)
Definition plain_fence : regex :=
  Seq (Chars (fence ++ [nl])) (Seq (Group LazyDotStar) (Chars (nl :: fence))).

(** [```(.*?)```] *)
Definition inline_fence : regex :=
  Seq (Chars fence) (Seq (Group LazyDotStar) (Chars fence)).

(** The loop shared by the four extractors:
    [for pattern in patterns: matches = re.findall(...); if matches: return
    matches[0].strip()] and then [return response.strip()]. *)
Fixpoint extract_with (patterns : list regex) (response : str) : result str :=
  match patterns with
  | [] => Ok (strip response)
  | pattern :: patterns' =>
      let matches := findall pattern response in
      match matches with
      | _ :: _ => m ← item0 matches; Ok (strip m)
      | [] => extract_with patterns' response
      end
  end.

Definition code_patterns : list regex :=
  [ tagged_fence (Alt (Chars (lit "terraform")) (Chars (lit "hcl")));
    plain_fence;
    inline_fence ].

Definition _extract_terraform_code (response : str) : result str :=
  extract_with code_patterns response.

Definition yaml_patterns : list regex :=
  [ tagged_fence (Alt (Chars (lit "yaml")) (Chars (lit "yml")));
    plain_fence ].

Definition _extract_yaml_content (response : str) : result str :=
  extract_with yaml_patterns response.

Definition dockerfile_patterns : list regex :=
  [ tagged_fence (Alt (Chars (lit "dockerfile")) (Chars (lit "docker")));
    plain_fence ].

Definition _extract_dockerfile_content (response : str) : result str :=
  extract_with dockerfile_patterns response.

Definition script_patterns : list regex :=
  [ tagged_fence (Alt (Chars (lit "bash"))
                    (Alt (Chars (lit "sh")) (Chars (lit "shell"))));
    plain_fence ].

Definition _extract_script_content (response : str) : result str :=
  extract_with script_patterns response.

(** ** What [yaml.safe_load] returns

    The Python values PyYAML's safe loader constructs.  The code looks at a
    loaded document only from the top: its truth value, [in], subscription
    and [.lower()].  Of a float only the truth value is observable here. *)

Inductive yaml_value : Type :=
| YNone
| YBool (b : bool)
| YInt (z : Z)
| YFloat (nonzero : bool)
| YStr (s : str)
| YBytes (b : list N)                          (* !!binary *)
| YSeq (items : list yaml_value)
| YMap (items : list (yaml_value * yaml_value))
| YSet (items : list yaml_value)               (* !!set *)
| YDate.                                       (* !!timestamp *)

(** The keys of [manifests]: [str.lower()] gives a [str], [bytes.lower()]
    gives [bytes]. *)
Inductive pykey : Type :=
| KStr (s : str)
| KBytes (b : list N).

#[export] Instance pykey_eq_dec : EqDecision pykey.
Proof. solve_decision. Defined.

#[export] Instance pykey_countable : Countable pykey :=
  inj_countable'
    (fun k => match k with KStr s => inl s | KBytes b => inr b end)
    (fun x => match x with inl s => KStr s | inr b => KBytes b end)
    (fun k => match k with KStr _ => eq_refl | KBytes _ => eq_refl end).

(** [repr] of a [bytes] object: [b], a quote (double when the bytes hold a
    single quote and no double one), the bytes with backslash, the quote,
    tab, newline and carriage return escaped and every other byte outside
    the printable ASCII range written [\xhh], and the quote again. *)
Definition hex_digit (n : N) : N := if n <? 10 then 48 + n else 87 + n.

Definition byte_repr (quote c : N) : str :=
  if (c =? quote) || (c =? 92) then [92; c]
  else if c =? 9 then [92; 116]
  else if c =? 10 then [92; 110]
  else if c =? 13 then [92; 114]
  else if (c <? 32) || (127 <=? c)
       then [92; 120; hex_digit (c / 16); hex_digit (c mod 16)]
       else [c].

Definition bytes_repr (b : list N) : str :=
  let quote :=
    if existsb (N.eqb 39) b && negb (existsb (N.eqb 34) b) then 34 else 39 in
  [98; quote] ++ (b ≫= byte_repr quote) ++ [quote].

(** [f"{name}"] for a key of [manifests]: a [str] as it is, [bytes] through
    [repr]. *)
Definition format_key (name : pykey) : str :=
  match name with
  | KStr s => s
  | KBytes b => bytes_repr b
  end.

(** [bool(v)] *)
Definition truth (v : yaml_value) : bool :=
  match v with
  | YNone => false
  | YBool b => b
  | YInt z => negb (z =? 0)%Z
  | YFloat nonzero => nonzero
  | YStr s => match s with [] => false | _ => true end
  | YBytes b => match b with [] => false | _ => true end
  | YSeq items => match items with [] => false | _ => true end
  | YMap items => match items with [] => false | _ => true end
  | YSet items => match items with [] => false | _ => true end
  | YDate => true
  end.

(** [k == v] for a [str] [k] *)
Definition is_str (k : str) (v : yaml_value) : bool :=
  match v with
  | YStr s => bool_decide (s = k)
  | _ => false
  end.

(** [k in v] for a [str] [k]: substring of a string, element of a list or
    set, key of a dict; a [TypeError] on anything else. *)
Definition py_in (k : str) (v : yaml_value) : result bool :=
  match v with
  | YStr s => Ok (contains k s)
  | YSeq items | YSet items => Ok (existsb (is_str k) items)
  | YMap items => Ok (existsb (fun kv => is_str k kv.1) items)
  | YNone | YBool _ | YInt _ | YFloat _ | YBytes _ | YDate => Raise TypeError
  end.

(** [v[k]] for a [str] [k]: only a dict can be subscripted by a string. *)
Definition py_getitem (v : yaml_value) (k : str) : result yaml_value :=
  match v with
  | YMap items =>
      match List.find (fun kv => is_str k kv.1) items with
      | Some kv => Ok kv.2
      | None => Raise KeyError
      end
  | _ => Raise TypeError
  end.

(** [bytes.lower()]: the ASCII letters only. *)
Definition bytes_lower (b : list N) : list N :=
  (fun c => if (65 <=? c) && (c <=? 90) then c + 32 else c) <$> b.

(** The two library functions the manifest splitter calls and the
    repository does not contain: [yaml.safe_load], which returns a value or
    raises, and [str.lower]. *)
Class Library : Type := {
  safe_load : str -> result yaml_value;
  str_lower : str -> str
}.

Section Manifests.
Context `{Library}.

(** [v.lower()]: a method of [str] and [bytes], an [AttributeError]
    elsewhere. *)
Definition py_lower (v : yaml_value) : result pykey :=
  match v with
  | YStr s => Ok (KStr (str_lower s))
  | YBytes b => Ok (KBytes (bytes_lower b))
  | _ => Raise AttributeError
  end.

Definition kind : str := lit "kind".

(** The body of the [try]: [yaml_doc = yaml.safe_load(doc)], then
    [if yaml_doc and 'kind' in yaml_doc: manifests[yaml_doc['kind'].lower()] = doc]. *)
Definition structured (manifests : gmap pykey str) (doc : str)
  : result (gmap pykey str) :=
  yaml_doc ← safe_load doc;
  has_kind ← (if truth yaml_doc then py_in kind yaml_doc else Ok false);
  if has_kind : bool then
    v ← py_getitem yaml_doc kind;
    k ← py_lower v;
    Ok (<[k := doc]> manifests)
  else Ok manifests.

(** The [except:] branch: the first of the three literal markers found in
    the fragment names it. *)
Definition generic_naming (manifests : gmap pykey str) (doc : str)
  : result (gmap pykey str) :=
  if contains (lit "Deployment") doc then
    Ok (<[KStr (lit "deployment") := doc]> manifests)
  else if contains (lit "Service") doc then
    Ok (<[KStr (lit "service") := doc]> manifests)
  else if contains (lit "Ingress") doc then
    Ok (<[KStr (lit "ingress") := doc]> manifests)
  else Ok manifests.

(** [for doc in docs: doc = doc.strip(); if not doc: continue; try ...] *)
Fixpoint each_doc (docs : list str) (manifests : gmap pykey str)
  : result (gmap pykey str) :=
  match docs with
  | [] => Ok manifests
  | doc :: docs' =>
      let doc := strip doc in
      match doc with
      | [] => each_doc docs' manifests
      | _ :: _ =>
          manifests' ← try_except (structured manifests doc)
                                  (generic_naming manifests doc);
          each_doc docs' manifests'
      end
  end.

Definition _parse_k8s_manifests (response : str) : result (gmap pykey str) :=
  let docs := split (lit "---") response in
  each_doc docs ∅.

(** A Python [dict] keeps its keys in the order in which they were first
    inserted, which a [gmap] does not record.  [insertion_order docs
    manifests] goes through the turns of the loop once more and lists each
    key at the turn that adds it to the dictionary. *)
Fixpoint insertion_order (docs : list str) (manifests : gmap pykey str)
  : list pykey :=
  match docs with
  | [] => []
  | doc :: docs' =>
      let doc := strip doc in
      match doc with
      | [] => insertion_order docs' manifests
      | _ :: _ =>
          match try_except (structured manifests doc)
                           (generic_naming manifests doc) with
          | Ok manifests' =>
              elements (dom manifests' ∖ dom manifests)
              ++ insertion_order docs' manifests'
          | Raise _ => []
          end
      end
  end.

(** [manifests.items()] for the dictionary that [_parse_k8s_manifests] has
    built from [response]: its entries in insertion order. *)
Definition dict_items (response : str) (manifests : gmap pykey str)
  : list (pykey * str) :=
  omap (fun name => pair name <$> manifests !! name)
       (insertion_order (split (lit "---") response) ∅).

End Manifests.

(** ** The orchestration

    What a run does to the outside is recorded as a trace, oldest event
    first: calls to the generation endpoint, log records, file writes.

    A [WriteFile] event is a write that went through.  [open] can raise
    (the program itself makes [terraform] but not [terraform/Stage1], and
    a manifest is named after a key read from the response); a run in
    which it does is not described here.  The steps below are the runs in
    which every write goes through, so the properties of a run that
    returns normally take that return as a premise, and the properties of
    a run in which a call fails speak of the writes made before the
    failing call. *)

Inductive path : Type :=
| Stage1Main            (* terraform/Stage1/main.tf *)
| Stage2Main            (* terraform/Stage2/main.tf *)
| Stage1Variables       (* terraform/Stage1/variables.tf *)
| ManifestFile (name : str)     (* f"{name}.yaml", [name] the formatted key *)
| WorkflowFile          (* .github/workflows/deploy.yml *)
| DockerfilePath        (* Dockerfile *)
| ScriptFile (name : string).   (* f"scripts/{script_name}.sh" *)

Inductive event : Type :=
| Call (prompt : str)                    (* generate_content(prompt, ...) *)
| LogInfo (msg : string)                 (* self.logger.info *)
| LogError (msg : string) (e : exn)      (* self.logger.error(f"...: {str(e)}") *)
| WriteFile (p : path) (content : str)   (* open(p, 'w').write(content) *)
| Chmod (p : path)                       (* os.chmod(p, 0o755) *)
| PrintLine (msg : string).                (* print(msg) *)

Definition trace : Type := list event.

(** The number of calls made to the endpoint so far. *)
(** The prompts sent to the endpoint, in order. *)
Definition prompts_sent (t : trace) : list str :=
  omap (fun ev => match ev with Call p => Some p | _ => None end) t.

(** The number of calls made to the endpoint so far. *)
Definition calls_made (t : trace) : nat := length (prompts_sent t).

(** A computation with effects: it extends the trace and returns or raises. *)
Definition M (A : Type) : Type := trace -> result A * trace.

#[export] Instance M_ret : MRet M := fun _ a t => (Ok a, t).
#[export] Instance M_bind : MBind M := fun _ _ f x t =>
  match x t with
  | (Ok a, t') => f a t'
  | (Raise e, t') => (Raise e, t')
  end.

Definition emit (ev : event) : M unit := fun t => (Ok (), t ++ [ev]).

(** A computation without effects inside one with. *)
Definition pure {A} (r : result A) : M A := fun t => (r, t).

(** [try: body except Exception as e: self.logger.error(f"{msg}: {str(e)}"); raise] *)
Definition logged {A} (msg : string) (body : M A) : M A := fun t =>
  match body t with
  | (Ok a, t') => (Ok a, t')
  | (Raise e, t') => (Raise e, t' ++ [LogError msg e])
  end.

(** The prompt texts of the source, which are f-strings over the
    configuration read at start-up. *)
Record prompts : Type := {
  prompt1 : str;            (* Stage 1 main.tf *)
  prompt2 : str;            (* Stage 2 main.tf *)
  variables_prompt : str;
  manifests_prompt : str;
  workflow_prompt : str;
  dockerfile_prompt : str;
  setup_prompt : str;
  deploy_prompt : str
}.

Definition test_prompt : str :=
  lit "Say 'Hello, EKS automation pipeline!' and nothing else.".

(** The generation endpoint, which is not part of the repository:
    [generate_content(prompt, ...)] followed by [.text], as a function of
    the number of earlier calls and of the prompt. *)
Class Endpoint : Type :=
  generate_content : nat -> str -> result str.

Section Pipeline.
Context `{Library} `{Endpoint} (P : prompts).

Definition _call_gemini_api (prompt : str) : M str :=
  logged "Gemini API call failed"
    (fun t => (generate_content (calls_made t) prompt, t ++ [Call prompt])).

Definition generate_complete_terraform_main : M str :=
  logged "Failed to generate complete Terraform main.tf"
    (response ← _call_gemini_api (prompt1 P);
     terraform_content ← pure (_extract_terraform_code response);
     _ ← emit (WriteFile Stage1Main terraform_content);
     response ← _call_gemini_api (prompt2 P);
     terraform_content ← pure (_extract_terraform_code response);
     _ ← emit (WriteFile Stage2Main terraform_content);
     _ ← emit (LogInfo "Generated complete Terraform main.tf");
     mret terraform_content).

Definition generate_terraform_variables : M str :=
  logged "Failed to generate Terraform variables.tf"
    (response ← _call_gemini_api (variables_prompt P);
     variables_content ← pure (_extract_terraform_code response);
     _ ← emit (WriteFile Stage1Variables variables_content);
     _ ← emit (LogInfo "Generated Terraform variables.tf");
     mret variables_content).

(** [for name, content in manifests.items(): write; log] *)
Fixpoint save_manifests (items : list (pykey * str)) : M unit :=
  match items with
  | [] => mret ()
  | (name, content) :: items' =>
      _ ← emit (WriteFile (ManifestFile (format_key name)) content);
      _ ← emit (LogInfo "Generated Kubernetes manifest");
      save_manifests items'
  end.

(** The dictionary is iterated in insertion order ([dict_items]). *)
Definition generate_kubernetes_manifests : M (gmap pykey str) :=
  logged "Failed to generate Kubernetes manifests"
    (response ← _call_gemini_api (manifests_prompt P);
     manifests ← pure (_parse_k8s_manifests response);
     _ ← save_manifests (dict_items response manifests);
     mret manifests).

Definition generate_github_actions_workflow : M str :=
  logged "Failed to generate GitHub Actions workflow"
    (response ← _call_gemini_api (workflow_prompt P);
     workflow_content ← pure (_extract_yaml_content response);
     _ ← emit (WriteFile WorkflowFile workflow_content);
     _ ← emit (LogInfo "Generated GitHub Actions workflow");
     mret workflow_content).

Definition generate_dockerfile : M str :=
  logged "Failed to generate Dockerfile"
    (response ← _call_gemini_api (dockerfile_prompt P);
     dockerfile_content ← pure (_extract_dockerfile_content response);
     _ ← emit (WriteFile DockerfilePath dockerfile_content);
     _ ← emit (LogInfo "Generated Dockerfile");
     mret dockerfile_content).

Definition save_script (script_name : string) (content : str) : M unit :=
  _ ← emit (WriteFile (ScriptFile script_name) content);
  _ ← emit (Chmod (ScriptFile script_name));
  emit (LogInfo "Generated script").

Definition generate_deployment_scripts : M (str * str) :=
  logged "Failed to generate deployment scripts"
    (setup_response ← _call_gemini_api (setup_prompt P);
     setup_content ← pure (_extract_script_content setup_response);
     deploy_response ← _call_gemini_api (deploy_prompt P);
     deploy_content ← pure (_extract_script_content deploy_response);
     _ ← save_script "setup" setup_content;
     _ ← save_script "deploy" deploy_content;
     mret (setup_content, deploy_content)).

Definition _print_completion_summary : M unit :=
  emit (PrintLine "EKS AUTOMATION PIPELINE COMPLETED SUCCESSFULLY!").

Definition run_full_pipeline : M unit :=
  logged "Pipeline failed"
    (_ ← emit (LogInfo "Starting full automation pipeline");
     _ ← emit (LogInfo "Generating complete Terraform main.tf");
     _ ← generate_complete_terraform_main;
     _ ← emit (LogInfo "Generating Terraform variables.tf");
     _ ← generate_terraform_variables;
     _ ← emit (LogInfo "Generating Kubernetes manifests");
     _ ← generate_kubernetes_manifests;
     _ ← emit (LogInfo "Generating GitHub Actions workflow");
     _ ← generate_github_actions_workflow;
     _ ← emit (LogInfo "Generating Dockerfile");
     _ ← generate_dockerfile;
     _ ← emit (LogInfo "Generating deployment scripts");
     _ ← generate_deployment_scripts;
     _ ← emit (LogInfo "Full automation pipeline completed successfully");
     _print_completion_summary).

(** [try: ... return True except Exception as e: ... return False] *)
Definition test_gemini_connection : M bool := fun t =>
  match _call_gemini_api test_prompt t with
  | (Ok response, t') => (Ok true, t' ++ [LogInfo "Gemini API test successful"])
  | (Raise e, t') => (Ok false, t' ++ [LogError "Gemini API test failed" e])
  end.

(** The [__main__] block, once the pipeline object is constructed. *)
Definition main : M unit :=
  connected ← test_gemini_connection;
  if connected : bool then
    _ ← emit (PrintLine "Gemini API connection successful!");
    run_full_pipeline
  else emit (PrintLine "Gemini API connection failed!").

(** The prompts of the generation steps in the order [run_full_pipeline]
    issues them. *)
Definition sequence : list str :=
  [ prompt1 P; prompt2 P; variables_prompt P; manifests_prompt P;
    workflow_prompt P; dockerfile_prompt P; setup_prompt P; deploy_prompt P ].

End Pipeline.

(** ** Notions used to state the properties *)

(** [p] is a contiguous substring of [s]. *)
Definition substring_of (p s : str) : Prop := ∃ a b, s = a ++ p ++ b.

(** The group captured by the first pattern, in priority order, that
    matches somewhere in [s]. *)
Fixpoint first_capture (patterns : list regex) (s : str) : option str :=
  match patterns with
  | [] => None
  | p :: patterns' =>
      match search p s with
      | Some (g, _, _) => Some g
      | None => first_capture patterns' s
      end
  end.

(** What a fence opened by [opener] encloses at the head of [s]: the text up
    to the first newline-fence, and the text after it. *)
Definition body_after (opener s : str) : option (str * str) :=
  if startswith opener s
  then find_sub (nl :: fence) (drop (length opener) s)
  else None.

(** Started on the trace [t], the computation [c] ends with [r] after
    adding the events [evs]. *)
Definition yields {A} (c : M A) (t : trace) (r : result A) (evs : trace) : Prop :=
  c t = (r, t ++ evs).

(** The events of saving the manifests [items]. *)
Definition manifest_events (items : list (pykey * str)) : trace :=
  items ≫= fun item =>
    [ WriteFile (ManifestFile (format_key item.1)) item.2;
      LogInfo "Generated Kubernetes manifest" ].

(** The manifest splitter, fragment by fragment. *)
Section ManifestKeys.
Context `{Library}.

(** The fragments the loop handles: the pieces between separators,
    trimmed, the empty ones left out. *)
Definition fragments (response : str) : list str :=
  filter (fun doc => doc ≠ []) (strip <$> split (lit "---") response).

(** A fragment declares the kind [k]: it loads as a mapping whose ['kind']
    entry is the string [k]. *)
Definition declares (doc : str) (k : str) : Prop :=
  doc ≠ [] ∧
  ∃ items, safe_load doc = Ok (YMap items) ∧
           py_getitem (YMap items) kind = Ok (YStr k).

(** The key the [try] body finds for a fragment: [Ok None] when it stores
    nothing, [Raise] when it raises. *)
Definition declared_key (doc : str) : result (option pykey) :=
  yaml_doc ← safe_load doc;
  has_kind ← (if truth yaml_doc then py_in kind yaml_doc else Ok false);
  if has_kind : bool then
    v ← py_getitem yaml_doc kind;
    k ← py_lower v;
    Ok (Some k)
  else Ok None.

(** The key the [except:] branch finds. *)
Definition marker_key (doc : str) : option pykey :=
  if contains (lit "Deployment") doc then Some (KStr (lit "deployment"))
  else if contains (lit "Service") doc then Some (KStr (lit "service"))
  else if contains (lit "Ingress") doc then Some (KStr (lit "ingress"))
  else None.

(** The key a fragment ends up under, if any. *)
Definition key_of (doc : str) : option pykey :=
  match declared_key doc with
  | Ok key => key
  | Raise _ => marker_key doc
  end.

(** What one turn of the loop does to the dictionary. *)
Definition store (manifests : gmap pykey str) (doc : str) : gmap pykey str :=
  match key_of doc with
  | Some k => <[k := doc]> manifests
  | None => manifests
  end.

(** Neither the structured parse gives a key nor the marker search. *)
Definition unrecognised (doc : str) : bool :=
  match declared_key doc, marker_key doc with
  | Ok (Some _), _ => false
  | _, Some _ => false
  | _, None => true
  end.

End ManifestKeys.

(** The keys of [keys] in the order of their first occurrence, those of
    [seen] left out. *)
Fixpoint first_seen (keys : list pykey) (seen : gset pykey) : list pykey :=
  match keys with
  | [] => []
  | k :: keys' =>
      if decide (k ∈ seen) then first_seen keys' seen
      else k :: first_seen keys' ({[k]} ∪ seen)
  end.

(** ** Sample collaborators

    [str.lower] on ASCII text, and an excerpt of [yaml.safe_load]: what it
    returns on the few documents used as examples below.  On any other
    document [sample_safe_load] raises; it is not meant to agree with
    PyYAML there. *)

Definition ascii_lower (s : str) : str :=
  (fun c => if (65 <=? c) && (c <=? 90) then c + 32 else c) <$> s.

Definition kind_only (k : string) : yaml_value :=
  YMap [(YStr (lit "kind"), YStr (lit k))].

Definition sample_documents : list (str * result yaml_value) :=
  [ (lit "kind: Deployment", Ok (kind_only "Deployment"));
    (lit "kind: Service", Ok (kind_only "Service"));
    (lit "kind: Ingress", Ok (kind_only "Ingress"));
    (lit "kind: Service" ++ [nl] ++ lit "name: a",
     Ok (YMap [(YStr (lit "kind"), YStr (lit "Service"));
               (YStr (lit "name"), YStr (lit "a"))]));
    (lit "kind: Service" ++ [nl] ++ lit "name: b",
     Ok (YMap [(YStr (lit "kind"), YStr (lit "Service"));
               (YStr (lit "name"), YStr (lit "b"))]));
    (lit "name: web", Ok (YMap [(YStr (lit "name"), YStr (lit "web"))]));
    (lit "Deployment", Ok (YStr (lit "Deployment")));
    (lit "kind of Deployment", Ok (YStr (lit "kind of Deployment")));
    (lit "foo", Ok (YStr (lit "foo")));
    (lit "bar", Ok (YStr (lit "bar")));
    (lit "Service: [", Raise YAMLError) ].

Definition sample_safe_load (doc : str) : result yaml_value :=
  match List.find (fun entry => bool_decide (entry.1 = doc)) sample_documents with
  | Some entry => entry.2
  | None => Raise YAMLError
  end.

Definition sample_library : Library :=
  {| safe_load := sample_safe_load; str_lower := ascii_lower |}.

(** A run in which the endpoint answers four times and then fails with a
    quota error. *)
Definition sample_prompts : prompts :=
  {| prompt1 := lit "stage 1 main.tf";
     prompt2 := lit "stage 2 main.tf";
     variables_prompt := lit "variables.tf";
     manifests_prompt := lit "manifests";
     workflow_prompt := lit "workflow";
     dockerfile_prompt := lit "Dockerfile";
     setup_prompt := lit "setup script";
     deploy_prompt := lit "deploy script" |}.

Definition sample_endpoint : Endpoint := fun n _ =>
  if (n <? 4)%nat
  then Ok (fence ++ lit "hcl" ++ [nl] ++ lit "x = 1" ++ [nl] ++ fence)
  else Raise (EndpointError 429).

(** The tag pattern [tag] lets the tag text [t] through when a newline
    follows it: whatever comes after the optional tag and has to start with
    a newline is reached right after [t]. *)
Definition accepts (tag : regex) (t : str) : Prop :=
  ∀ (rest : str) (k : str → option str → option (str * str)),
    (∀ s' cap, startswith [nl] s' = false → k s' cap = None) →
    mt (Opt tag) (t ++ nl :: rest) None k = k (nl :: rest) None.

(** No tag starts with a backquote. *)
Definition rejects_backquote (tag : regex) : Prop :=
  ∀ (s : str) (k : str → option str → option (str * str)),
    mt tag (96 :: s) None k = None.

(** The files a trace writes, with their contents, in order. *)
Definition files_written (t : trace) : list (path * str) :=
  omap (fun ev => match ev with WriteFile p c => Some (p, c) | _ => None end) t.

(** Every pattern of the list is a newline-delimited fence. *)
Definition newline_fenced (patterns : list regex) : Prop :=
  ∀ p, p ∈ patterns → p = plain_fence ∨ ∃ tag, p = tagged_fence tag.

(** More documents and what [yaml.safe_load] does with them: a mapping
    whose [kind] is a number (the rest of the line is a comment), an
    unterminated flow sequence, on which it raises, and a kind written in
    lower case. *)
Definition more_documents : list (str * result yaml_value) :=
  [ (lit "kind: 5 # Deployment", Ok (YMap [(YStr (lit "kind"), YInt 5)]));
    (lit "Deployment: [ Service", Raise YAMLError);
    (lit "kind: service", Ok (kind_only "service")) ].

Definition more_safe_load (doc : str) : result yaml_value :=
  match List.find (fun entry => bool_decide (entry.1 = doc)) more_documents with
  | Some entry => entry.2
  | None => sample_safe_load doc
  end.

Definition more_library : Library :=
  {| safe_load := more_safe_load; str_lower := ascii_lower |}.

(** An endpoint that always answers [text], and one that answers the first
    [k] calls with a fenced block and fails from then on. *)
Definition answering (text : str) : Endpoint := fun _ _ => Ok text.

Definition failing_from (k : nat) : Endpoint := fun n _ =>
  if (n <? k)%nat
  then Ok (fence ++ lit "hcl" ++ [nl] ++ lit "x = 1" ++ [nl] ++ fence)
  else Raise (EndpointError 429).

(** * Properties *)

(** ** Strings *)

Lemma startswith_app p r : startswith p (p ++ r) = true.
Proof.
  induction p as [|a p IH]; simpl; [done|].
  by rewrite N.eqb_refl, IH.
Qed.

Lemma startswith_prefix p s : startswith p s = true → s = p ++ drop (length p) s.
Proof.
  revert s; induction p as [|a p IH]; intros [|b s]; simpl; try done.
  intros [Hab Hp]%andb_prop. apply N.eqb_eq in Hab as ->.
  f_equal. by apply IH.
Qed.

Lemma startswith_true p s : startswith p s = true ↔ ∃ r, s = p ++ r.
Proof.
  split.
  - intros Hp. eexists. by apply startswith_prefix.
  - intros [r ->]. apply startswith_app.
Qed.

Lemma startswith_split p q s :
  startswith (p ++ q) s = startswith p s && startswith q (drop (length p) s).
Proof.
  revert s; induction p as [|a p IH]; intros s; simpl.
  - by rewrite drop_0.
  - destruct s as [|b s]; simpl; [done|].
    rewrite IH. by rewrite andb_assoc.
Qed.

Lemma find_sub_unfold p s :
  find_sub p s =
  if startswith p s then Some ([], drop (length p) s)
  else match s with
       | [] => None
       | c :: s' =>
           match find_sub p s' with
           | Some (a, b) => Some (c :: a, b)
           | None => None
           end
       end.
Proof. by destruct s. Qed.

Lemma find_sub_Some p s a b : find_sub p s = Some (a, b) → s = a ++ p ++ b.
Proof.
  revert a b; induction s as [|c s IH]; intros a b; rewrite find_sub_unfold.
  - destruct (startswith p []) eqn:Hp; [|done].
    intros [= <- <-]. by apply startswith_prefix in Hp.
  - destruct (startswith p (c :: s)) eqn:Hp.
    + intros [= <- <-]. by apply startswith_prefix in Hp.
    + destruct (find_sub p s) as [[a' b']|] eqn:Hf; [|done].
      intros [= <- <-]. simpl. f_equal. by apply IH.
Qed.

(** Before the cut there is no earlier occurrence. *)
Lemma find_sub_first p s a b :
  find_sub p s = Some (a, b) →
  ∀ a1 a2, a = a1 ++ a2 → a2 ≠ [] → startswith p (a2 ++ p ++ b) = false.
Proof.
  revert a b; induction s as [|c s IH]; intros a b; rewrite find_sub_unfold.
  - destruct (startswith p []); [|done].
    intros [= <- <-] a1 a2 Ha. by destruct a1, a2.
  - destruct (startswith p (c :: s)) eqn:Hp.
    + intros [= <- <-] a1 a2 Ha. by destruct a1, a2.
    + destruct (find_sub p s) as [[a' b']|] eqn:Hf; [|done].
      intros [= <- <-] a1 a2 Ha Hne.
      destruct a1 as [|x a1]; simpl in Ha.
      * subst a2. simpl. apply find_sub_Some in Hf. by rewrite <-Hf.
      * injection Ha as -> ->. by eapply IH.
Qed.

Lemma find_sub_here p s a b :
  (∀ a1 a2, a = a1 ++ a2 → a2 ≠ [] → startswith p (a2 ++ p ++ b) = false) →
  s = a ++ p ++ b →
  find_sub p s = Some (a, b).
Proof.
  revert s; induction a as [|c a IH]; intros s Hfirst ->;
    rewrite find_sub_unfold.
  - simpl. by rewrite startswith_app, drop_app_length.
  - pose proof (Hfirst [] (c :: a) eq_refl ltac:(done)) as Hc.
    simpl in *. rewrite Hc.
    rewrite (IH (a ++ p ++ b)); [done| |done].
    intros a1 a2 -> Hne. by apply (Hfirst (c :: a1) a2).
Qed.

Lemma find_sub_None p s : find_sub p s = None → ¬ substring_of p s.
Proof.
  intros Hf (a & b & ->). revert Hf.
  induction a as [|c a IH]; rewrite find_sub_unfold.
  - simpl. by rewrite startswith_app.
  - simpl. destruct (startswith p (c :: a ++ p ++ b)); [done|].
    destruct (find_sub p (a ++ p ++ b)) as [[??]|]; [done|]. auto.
Qed.

Lemma contains_true p s : contains p s = true ↔ substring_of p s.
Proof.
  unfold contains. split.
  - destruct (find_sub p s) as [[a b]|] eqn:Hf; [|done].
    intros _. exists a, b. by apply find_sub_Some.
  - intros Hs. destruct (find_sub p s) eqn:Hf; [done|].
    by apply find_sub_None in Hf.
Qed.

Lemma contains_false p s : contains p s = false ↔ ¬ substring_of p s.
Proof.
  rewrite <-contains_true. by destruct (contains p s).
Qed.

Lemma substring_of_refl s : substring_of s s.
Proof. exists [], []. by rewrite app_nil_r. Qed.

Lemma substring_of_trans p q s :
  substring_of p q → substring_of q s → substring_of p s.
Proof.
  intros (a & b & ->) (a' & b' & ->).
  exists (a' ++ a), (b ++ b'). by rewrite <-!app_assoc.
Qed.

Lemma substring_of_app_l p a s : substring_of p s → substring_of p (a ++ s).
Proof.
  intros (x & y & ->). exists (a ++ x), y. by rewrite <-app_assoc.
Qed.

Lemma substring_of_app_r p s b : substring_of p s → substring_of p (s ++ b).
Proof.
  intros (x & y & ->). exists x, (y ++ b). by rewrite <-!app_assoc.
Qed.

(** *** Trimming *)

Lemma lstrip_suffix s : ∃ l, s = l ++ lstrip s ∧ forallb isspace l = true.
Proof.
  induction s as [|c s (l & IH & Hl)]; simpl.
  - by exists [].
  - destruct (isspace c) eqn:Hc.
    + exists (c :: l). simpl. rewrite Hc, Hl. by rewrite <-IH.
    + by exists [].
Qed.

Lemma lstrip_idemp s : lstrip (lstrip s) = lstrip s.
Proof.
  induction s as [|c s IH]; simpl; [done|].
  destruct (isspace c) eqn:Hc; [done|]. simpl. by rewrite Hc.
Qed.

Lemma lstrip_snoc l c :
  lstrip (l ++ [c]) =
  match lstrip l with
  | [] => if isspace c then [] else [c]
  | _ :: _ => lstrip l ++ [c]
  end.
Proof.
  induction l as [|x l IH]; simpl; [done|].
  by destruct (isspace x).
Qed.

Lemma rstrip_cons c t :
  rstrip (c :: t) =
  match rstrip t with
  | [] => if isspace c then [] else [c]
  | _ :: _ => c :: rstrip t
  end.
Proof.
  unfold rstrip. simpl. rewrite lstrip_snoc.
  destruct (lstrip (rev t)) as [|x l] eqn:E; simpl.
  - by destruct (isspace c).
  - rewrite rev_app_distr. simpl.
    destruct (rev l ++ [x]) eqn:E'; [by destruct (rev l)|done].
Qed.

Lemma rstrip_prefix t : ∃ r, t = rstrip t ++ r ∧ forallb isspace r = true.
Proof.
  unfold rstrip. destruct (lstrip_suffix (rev t)) as (l & Hl & Hsp).
  exists (rev l). split.
  - rewrite <-rev_app_distr, <-Hl. by rewrite rev_involutive.
  - rewrite forallb_forall in *. intros x Hx. apply Hsp. by apply in_rev in Hx.
Qed.

Lemma rstrip_idemp t : rstrip (rstrip t) = rstrip t.
Proof. unfold rstrip. by rewrite rev_involutive, lstrip_idemp. Qed.

Lemma lstrip_rstrip t : lstrip t = t → lstrip (rstrip t) = rstrip t.
Proof.
  destruct t as [|c t]; [done|]. simpl.
  destruct (isspace c) eqn:Hc.
  - intros Heq. destruct (lstrip_suffix t) as (l & Hl & _).
    rewrite Heq in Hl. apply (f_equal length) in Hl.
    rewrite length_app in Hl. simpl in Hl. lia.
  - intros _. rewrite rstrip_cons.
    destruct (rstrip t); rewrite ?Hc; simpl; by rewrite ?Hc.
Qed.

Lemma strip_idemp s : strip (strip s) = strip s.
Proof.
  unfold strip.
  rewrite (lstrip_rstrip (lstrip s)) by apply lstrip_idemp.
  apply rstrip_idemp.
Qed.

(** Trimming removes blanks at both ends and nothing else. *)
Lemma strip_spec s :
  ∃ l r, s = l ++ strip s ++ r ∧
         forallb isspace l = true ∧ forallb isspace r = true.
Proof.
  destruct (lstrip_suffix s) as (l & Hl & Hsl).
  destruct (rstrip_prefix (lstrip s)) as (r & Hr & Hsr).
  exists l, r. unfold strip. by rewrite <-Hr.
Qed.

Lemma strip_substring s : substring_of (strip s) s.
Proof. destruct (strip_spec s) as (l & r & Hs & _). by exists l, r. Qed.

(** The trimmed text neither starts nor ends with a blank. *)
Lemma strip_ends s :
  (∀ c t, strip s = c :: t → isspace c = false) ∧
  (∀ c t, strip s = t ++ [c] → isspace c = false).
Proof.
  assert (Hl : ∀ u c t, lstrip u = c :: t → isspace c = false).
  { induction u as [|x u IH]; simpl; [done|]. intros c t.
    destruct (isspace x) eqn:Hx; [by apply IH|]. by intros [= <- <-]. }
  split.
  - intros c t Hs. apply (Hl (strip s) c t).
    rewrite <-Hs. apply lstrip_rstrip, lstrip_idemp.
  - intros c t Hs. unfold strip, rstrip in Hs.
    apply (f_equal (@rev N)) in Hs. rewrite rev_involutive in Hs.
    rewrite rev_app_distr in Hs. simpl in Hs. by eapply Hl.
Qed.

(** ** The matcher *)

Lemma lazy_star_ext {R} (k1 k2 : str → option R) s :
  (∀ s', k1 s' = k2 s') → lazy_star k1 s = lazy_star k2 s.
Proof.
  intros Hk. induction s as [|c s IH]; simpl; rewrite Hk; [done|].
  by rewrite IH.
Qed.

Lemma mt_ext {R} r s cap (k1 k2 : str → option str → option R) :
  (∀ s' cap', k1 s' cap' = k2 s' cap') → mt r s cap k1 = mt r s cap k2.
Proof.
  revert s cap k1 k2.
  induction r as [l|a IHa b IHb|a IHa b IHb|a IHa| |a IHa];
    intros s cap k1 k2 Hk; simpl.
  - by rewrite Hk.
  - apply IHa. intros s' cap'. by apply IHb.
  - by rewrite (IHa _ _ k1 k2), (IHb _ _ k1 k2).
  - by rewrite (IHa _ _ k1 k2), Hk.
  - apply lazy_star_ext. intros s'. apply Hk.
  - apply IHa. intros s' cap'. apply Hk.
Qed.

(** A lazily captured body followed by a literal: the body runs up to the
    first occurrence of the literal. *)
Lemma lazy_star_find c s0 pre s :
  s0 = pre ++ s →
  lazy_star
    (fun s' => if startswith c s'
               then Some (take (length s0 - length s') s0, drop (length c) s')
               else None) s
  = match find_sub c s with
    | Some (a, b) => Some (pre ++ a, b)
    | None => None
    end.
Proof.
  revert pre. induction s as [|x s IH]; intros pre ->;
    rewrite find_sub_unfold.
  - simpl lazy_star. destruct (startswith c []); [|done].
    rewrite length_app. simpl.
    replace (length pre + 0 - 0)%nat with (length pre) by lia.
    by rewrite take_app_length, app_nil_r.
  - simpl lazy_star. destruct (startswith c (x :: s)).
    + replace (length (pre ++ x :: s) - S (length s))%nat
        with (length pre) by (rewrite length_app; simpl; lia).
      by rewrite take_app_length, app_nil_r.
    + rewrite (IH (pre ++ [x])) by (by rewrite <-app_assoc).
      destruct (find_sub c s) as [[a b]|]; [|done].
      by rewrite <-app_assoc.
Qed.

Lemma captured_body c s cap :
  mt (Seq (Group LazyDotStar) (Chars c)) s cap
     (fun rest cap' => Some (default [] cap', rest))
  = find_sub c s.
Proof.
  cbn [mt].
  etrans; [exact (lazy_star_find c s [] s eq_refl)|].
  by destruct (find_sub c s) as [[a b]|].
Qed.

Lemma match_at_inline s :
  match_at inline_fence s =
  if startswith fence s then find_sub fence (drop (length fence) s) else None.
Proof.
  unfold match_at, inline_fence.
  change (mt (Seq ?a ?b) s None ?k)
    with (mt a s None (fun s' cap' => mt b s' cap' k)).
  change (mt (Chars fence) s None ?k)
    with (if startswith fence s then k (drop (length fence) s) None else None).
  destruct (startswith fence s); [|done]. apply captured_body.
Qed.

Lemma match_at_plain s :
  match_at plain_fence s =
  if startswith (fence ++ [nl]) s
  then find_sub (nl :: fence) (drop (length (fence ++ [nl])) s) else None.
Proof.
  unfold match_at, plain_fence.
  change (mt (Seq ?a ?b) s None ?k)
    with (mt a s None (fun s' cap' => mt b s' cap' k)).
  change (mt (Chars ?l) s None ?k)
    with (if startswith l s then k (drop (length l) s) None else None).
  destruct (startswith (fence ++ [nl]) s); [|done]. apply captured_body.
Qed.
Lemma mt_Seq {R} a b s cap (k : str → option str → option R) :
  mt (Seq a b) s cap k = mt a s cap (fun s' cap' => mt b s' cap' k).
Proof. done. Qed.

Lemma mt_Chars {R} l s cap (k : str → option str → option R) :
  mt (Chars l) s cap k =
  if startswith l s then k (drop (length l) s) cap else None.
Proof. done. Qed.

Lemma match_at_tagged t1 t2 s :
  match_at (tagged_fence (Alt (Chars t1) (Chars t2))) s =
  match body_after (fence ++ t1 ++ [nl]) s with
  | Some x => Some x
  | None =>
      match body_after (fence ++ t2 ++ [nl]) s with
      | Some x => Some x
      | None => body_after (fence ++ [nl]) s
      end
  end.
Proof.
  unfold match_at, tagged_fence, body_after.
  rewrite !startswith_split, !length_app, <-!drop_drop.
  rewrite mt_Seq, mt_Chars.
  destruct (startswith fence s); [|done]. rewrite !andb_true_l.
  generalize (drop (length fence) s) as s1. intros s1.
  rewrite mt_Seq.
  rewrite (mt_ext _ _ _ _
             (fun s' _ => if startswith [nl] s'
                          then find_sub (nl :: fence) (drop (length [nl]) s')
                          else None)); last first.
  { intros s' cap'. rewrite mt_Seq, mt_Chars. by rewrite captured_body. }
  cbn [mt].
  repeat match goal with
         | |- context [startswith ?p ?t] =>
             destruct (startswith p t);
             rewrite ?andb_true_l, ?andb_false_l
         end;
    repeat match goal with
           | |- context [find_sub ?p ?t] => destruct (find_sub p t)
           end; done.
Qed.

(** *** Leftmost search *)

Lemma search_unfold r s :
  search r s =
  match match_at r s with
  | Some (g, rest) => Some (g, s, rest)
  | None => match s with [] => None | _ :: s' => search r s' end
  end.
Proof. by destruct s. Qed.

Lemma search_Some r s g from rest :
  search r s = Some (g, from, rest) →
  ∃ pre, s = pre ++ from ∧ match_at r from = Some (g, rest) ∧
         ∀ a1 a2, pre = a1 ++ a2 → a2 ≠ [] → match_at r (a2 ++ from) = None.
Proof.
  induction s as [|c s IH]; rewrite search_unfold.
  - destruct (match_at r []) as [[g' rest']|] eqn:Hm; [|done].
    intros [= <- <- <-]. exists []. split_and!; [done..|].
    intros a1 a2 Ha. by destruct a1.
  - destruct (match_at r (c :: s)) as [[g' rest']|] eqn:Hm.
    + intros [= <- <- <-]. exists []. split_and!; [done..|].
      intros a1 a2 Ha. by destruct a1.
    + intros (pre & -> & Hat & Hfirst)%IH.
      exists (c :: pre). split_and!; [done..|].
      intros a1 a2 Ha Hne. destruct a1 as [|x a1]; simpl in Ha.
      * by subst a2.
      * injection Ha as -> ->. by eapply Hfirst.
Qed.

Lemma search_None r s :
  search r s = None → ∀ a b, s = a ++ b → match_at r b = None.
Proof.
  induction s as [|c s IH]; rewrite search_unfold.
  - destruct (match_at r []) as [[g' rest']|] eqn:Hm; [done|].
    intros _ a b Hab. symmetry in Hab.
    apply app_eq_nil in Hab as [_ ->]. done.
  - destruct (match_at r (c :: s)) as [[g' rest']|] eqn:Hm; [done|].
    intros Hs a b Hab. destruct a as [|x a]; simpl in Hab.
    + by subst b.
    + injection Hab as -> ->. by eapply IH.
Qed.

Lemma search_here r pre from g rest :
  match_at r from = Some (g, rest) →
  (∀ a1 a2, pre = a1 ++ a2 → a2 ≠ [] → match_at r (a2 ++ from) = None) →
  search r (pre ++ from) = Some (g, from, rest).
Proof.
  intros Hat. induction pre as [|c pre IH]; intros Hfirst;
    rewrite search_unfold; simpl.
  - by rewrite Hat.
  - pose proof (Hfirst [] (c :: pre) eq_refl ltac:(done)) as Hc.
    simpl in Hc. rewrite Hc. apply IH.
    intros a1 a2 -> Hne. by apply (Hfirst (c :: a1) a2).
Qed.

(** Some match exists as soon as the pattern matches at one position. *)
Lemma search_is_Some r pre from g rest :
  match_at r from = Some (g, rest) → is_Some (search r (pre ++ from)).
Proof.
  intros Hat. destruct (search r (pre ++ from)) eqn:Hs; [done|].
  by rewrite (search_None _ _ Hs pre from eq_refl) in Hat.
Qed.

Lemma findall_search r s :
  findall r s = [] ∧ search r s = None ∨
  ∃ g from rest tl, findall r s = g :: tl ∧ search r s = Some (g, from, rest).
Proof.
  unfold findall. simpl.
  destruct (search r s) as [[[g from] rest]|]; [right|by left].
  by eexists _, _, _, _.
Qed.

(** The extractor returns the trimmed capture of the first pattern that
    matches, and the trimmed response when none does. *)
Lemma extract_with_capture patterns response :
  extract_with patterns response =
  Ok (strip (default response (first_capture patterns response))).
Proof.
  induction patterns as [|p ps IH]; simpl; [done|].
  destruct (findall_search p response)
    as [[-> ->]|(g & from & rest & tl & -> & ->)]; [done|].
  done.
Qed.

(** *** What the three code patterns match *)

Lemma body_after_Some o s g rest :
  body_after (fence ++ o) s = Some (g, rest) →
  s = fence ++ (o ++ g ++ [nl]) ++ fence ++ rest.
Proof.
  unfold body_after. destruct (startswith _ s) eqn:Hp; [|done].
  intros Hf%find_sub_Some. apply startswith_prefix in Hp.
  rewrite Hp, Hf. by rewrite <-!app_assoc.
Qed.

Lemma match_at_tagged_shape t1 t2 s g rest :
  match_at (tagged_fence (Alt (Chars t1) (Chars t2))) s = Some (g, rest) →
  ∃ o, o ∈ [t1 ++ [nl]; t2 ++ [nl]; [nl]] ∧
       body_after (fence ++ o) s = Some (g, rest).
Proof.
  rewrite match_at_tagged.
  destruct (body_after (fence ++ t1 ++ [nl]) s) as [x|] eqn:H1.
  { intros [= ->]. exists (t1 ++ [nl]). split; [set_solver|done]. }
  destruct (body_after (fence ++ t2 ++ [nl]) s) as [x|] eqn:H2.
  { intros [= ->]. exists (t2 ++ [nl]). split; [set_solver|done]. }
  intros H3. exists [nl]. split; [set_solver|done].
Qed.

Lemma match_at_plain_body s :
  match_at plain_fence s = body_after (fence ++ [nl]) s.
Proof. by rewrite match_at_plain. Qed.

(** A match of any of the code patterns starts with a fence, ends with a
    fence, and its group lies in between. *)
Lemma code_pattern_shape p s g rest :
  p ∈ code_patterns →
  match_at p s = Some (g, rest) →
  ∃ o c, s = fence ++ (o ++ g ++ c) ++ fence ++ rest.
Proof.
  unfold code_patterns. rewrite !elem_of_cons, elem_of_nil.
  intros [->|[->|[->|[]]]].
  - intros (o & _ & Hb)%match_at_tagged_shape.
    exists o, [nl]. by apply body_after_Some.
  - rewrite match_at_plain_body. intros Hb.
    exists [nl], [nl]. by apply body_after_Some.
  - rewrite match_at_inline.
    destruct (startswith fence s) eqn:Hp; [|done].
    intros Hf%find_sub_Some. apply startswith_prefix in Hp.
    exists [], []. rewrite Hp, Hf. simpl. by rewrite app_nil_r.
Qed.

Lemma inline_complete a c b :
  is_Some (search inline_fence (a ++ fence ++ c ++ fence ++ b)).
Proof.
  destruct (match_at inline_fence (fence ++ c ++ fence ++ b))
    as [[g rest]|] eqn:Hm.
  - by eapply search_is_Some.
  - rewrite match_at_inline, startswith_app, drop_app_length in Hm.
    apply find_sub_None in Hm. destruct Hm. by exists c, b.
Qed.

Lemma inline_capture_fence_free s g rest :
  match_at inline_fence s = Some (g, rest) → ¬ substring_of fence g.
Proof.
  rewrite match_at_inline. destruct (startswith fence s); [|done].
  intros Hf (x & y & ->).
  pose proof (find_sub_first _ _ _ _ Hf x (fence ++ y) eq_refl ltac:(done))
    as Hno.
  by rewrite <-app_assoc, startswith_app in Hno.
Qed.

(** *** Fences in the subject *)

Lemma fence_chars : fence = [96; 96; 96].
Proof. reflexivity. Qed.

Lemma fence_in_closer : substring_of fence (nl :: fence).
Proof. by exists [nl], []. Qed.

(** In [body] followed by a closing newline-fence, the first newline-fence
    is the closing one when [body] contains none. *)
Lemma closer_first body post :
  contains (nl :: fence) body = false →
  ∀ a1 a2, body = a1 ++ a2 → a2 ≠ [] →
           startswith (nl :: fence) (a2 ++ (nl :: fence) ++ post) = false.
Proof.
  intros Hbody%contains_false a1 a2 -> Hne.
  destruct (startswith _ _) eqn:Hp; [|done].
  apply startswith_true in Hp as [r Hr]. destruct Hbody.
  apply substring_of_app_l. rewrite fence_chars in *.
  destruct a2 as [|c [|d [|e [|f a2]]]]; simplify_eq/=.
  by exists [], a2.
Qed.

Lemma find_closer body post :
  contains (nl :: fence) body = false →
  find_sub (nl :: fence) (body ++ (nl :: fence) ++ post) = Some (body, post).
Proof.
  intros Hbody. apply find_sub_here; [|done]. by apply closer_first.
Qed.

(** A fence that starts inside fence-free text and is followed by something
    other than a backquote cannot start before the text ends. *)
Lemma no_early_opener a2 o rest :
  a2 ≠ [] → (∀ c o', o = c :: o' → c ≠ 96) → o ≠ [] →
  startswith (fence ++ o) (a2 ++ fence ++ rest) = true →
  substring_of fence a2.
Proof.
  intros Hne Ho Hoe [r Hr]%startswith_true. rewrite fence_chars in *.
  destruct o as [|c o]; [done|]. specialize (Ho c o eq_refl).
  destruct a2 as [|x [|y [|z a2]]]; simplify_eq/=.
  by exists [], a2.
Qed.

Lemma search_fence p s g from rest :
  p ∈ code_patterns → search p s = Some (g, from, rest) →
  ∃ pre o c, s = pre ++ fence ++ (o ++ g ++ c) ++ fence ++ rest.
Proof.
  intros Hp (pre & -> & Hat & _)%search_Some.
  destruct (code_pattern_shape _ _ _ _ Hp Hat) as (o & c & ->).
  by exists pre, o, c.
Qed.

Lemma fence_free_no_match p s :
  p ∈ code_patterns → contains fence s = false → search p s = None.
Proof.
  intros Hp Hs%contains_false.
  destruct (search p s) as [[[g from] rest]|] eqn:Hsr; [|done].
  destruct (search_fence _ _ _ _ _ Hp Hsr) as (pre & o & c & ->).
  destruct Hs. by eexists _, _.
Qed.

Lemma first_capture_None patterns s :
  (∀ p, p ∈ patterns → search p s = None) → first_capture patterns s = None.
Proof.
  induction patterns as [|p ps IH]; simpl; [done|]. intros Hall.
  rewrite (Hall p) by set_solver. apply IH. intros q Hq. apply Hall. set_solver.
Qed.

Lemma first_capture_Some patterns p s :
  p ∈ patterns → is_Some (search p s) → is_Some (first_capture patterns s).
Proof.
  induction patterns as [|q ps IH]; simpl; [set_solver|].
  intros [->|Hp]%elem_of_cons [x Hx].
  - rewrite Hx. by destruct x as [[??]?].
  - destruct (search q s) as [[[??]?]|]; [done|]. by apply IH.
Qed.

Lemma fence_free_extract s :
  contains fence s = false → _extract_terraform_code s = Ok (strip s).
Proof.
  intros Hs. unfold _extract_terraform_code.
  rewrite extract_with_capture, first_capture_None; [done|].
  intros p Hp. by apply fence_free_no_match.
Qed.

Lemma first_capture_substring s g :
  first_capture code_patterns s = Some g → substring_of g s.
Proof.
  assert (Hall : ∀ ps, (∀ p, p ∈ ps → p ∈ code_patterns) →
                       first_capture ps s = Some g → substring_of g s).
  { induction ps as [|p ps IH]; simpl; [done|]. intros Hin.
    destruct (search p s) as [[[g' from] rest]|] eqn:Hsr.
    - intros [= ->].
      destruct (search_fence p s g from rest) as (pre & o & c & ->);
        [apply Hin; set_solver|done|].
      exists (pre ++ fence ++ o), (c ++ fence ++ rest).
      by rewrite <-!app_assoc.
    - apply IH. intros q Hq. apply Hin. set_solver. }
  by apply Hall.
Qed.

(** The tagged pattern at a fence opened with a tag it knows. *)
Lemma match_at_known_tag tag body post :
  tag ∈ [lit "terraform"; lit "hcl"] →
  contains (nl :: fence) body = false →
  match_at (tagged_fence (Alt (Chars (lit "terraform")) (Chars (lit "hcl"))))
           (fence ++ tag ++ [nl] ++ body ++ [nl] ++ fence ++ post)
  = Some (body, post).
Proof.
  intros Htag Hbody. rewrite match_at_tagged.
  assert (Hhere : body_after (fence ++ tag ++ [nl])
            (fence ++ tag ++ [nl] ++ body ++ [nl] ++ fence ++ post)
          = Some (body, post)).
  { unfold body_after.
    replace (fence ++ tag ++ [nl] ++ body ++ [nl] ++ fence ++ post)
      with ((fence ++ tag ++ [nl]) ++ body ++ (nl :: fence) ++ post)
      by (by rewrite <-!app_assoc).
    rewrite startswith_app, drop_app_length. by apply find_closer. }
  apply elem_of_cons in Htag as [->|Htag].
  - by rewrite Hhere.
  - apply list_elem_of_singleton in Htag as ->.
    replace (body_after (fence ++ lit "terraform" ++ [nl]) _) with
      (@None (str * str)); [by rewrite Hhere|].
    unfold body_after. by rewrite startswith_split, startswith_app.
Qed.

Lemma no_match_before_fence pre rest a1 a2 :
  contains fence pre = false → pre = a1 ++ a2 → a2 ≠ [] →
  match_at (tagged_fence (Alt (Chars (lit "terraform")) (Chars (lit "hcl"))))
           (a2 ++ fence ++ rest) = None.
Proof.
  intros Hpre%contains_false -> Hne. rewrite match_at_tagged.
  assert (Hno : ∀ o, (∀ c o', o = c :: o' → c ≠ 96) → o ≠ [] →
                     body_after (fence ++ o) (a2 ++ fence ++ rest) = None).
  { intros o Ho Hoe. unfold body_after.
    destruct (startswith _ _) eqn:Hp; [|done].
    destruct Hpre. apply substring_of_app_l. by eapply no_early_opener. }
  rewrite !Hno; try done; by intros c o' [= <- _].
Qed.

Lemma search_known_tag pre tag body post :
  tag ∈ [lit "terraform"; lit "hcl"] →
  contains fence pre = false →
  contains (nl :: fence) body = false →
  search (tagged_fence (Alt (Chars (lit "terraform")) (Chars (lit "hcl"))))
         (pre ++ fence ++ tag ++ [nl] ++ body ++ [nl] ++ fence ++ post)
  = Some (body, fence ++ tag ++ [nl] ++ body ++ [nl] ++ fence ++ post, post).
Proof.
  intros Htag Hpre Hbody. apply search_here.
  - by apply match_at_known_tag.
  - intros a1 a2 Ha Hne. by eapply no_match_before_fence.
Qed.

Lemma first_capture_known_tag pre tag body post :
  tag ∈ [lit "terraform"; lit "hcl"] →
  contains fence pre = false →
  contains (nl :: fence) body = false →
  first_capture code_patterns
    (pre ++ fence ++ tag ++ [nl] ++ body ++ [nl] ++ fence ++ post)
  = Some body.
Proof.
  intros Htag Hpre Hbody. unfold code_patterns, first_capture.
  by rewrite (search_known_tag pre tag body post).
Qed.

Lemma fence_free_closer s :
  contains fence s = false → contains (nl :: fence) s = false.
Proof.
  rewrite !contains_false. intros Hs Hc. apply Hs.
  eapply substring_of_trans; [apply fence_in_closer|done].
Qed.

Lemma extract_output_trimmed x r :
  _extract_terraform_code x = Ok r → strip r = r.
Proof.
  unfold _extract_terraform_code. rewrite extract_with_capture.
  intros [= <-]. apply strip_idemp.
Qed.

Lemma extract_substring x r :
  _extract_terraform_code x = Ok r → substring_of r x.
Proof.
  unfold _extract_terraform_code. rewrite extract_with_capture.
  destruct (first_capture code_patterns x) as [g|] eqn:Hg;
    simpl; intros [= <-].
  - eapply substring_of_trans; [apply strip_substring|].
    by apply first_capture_substring.
  - apply strip_substring.
Qed.

(** ** The code-fence extractor *)

(** C1, as the code has it: on an input that contains a fence tagged
    [terraform] or [hcl] (prose, a fence, the tag, a newline, a body, a
    newline, a fence, prose), where the prose before holds no fence and the
    body no newline followed by a fence, the extractor returns the body
    without the blanks at its two ends: the body is the result between two
    runs of blank characters, and the result neither starts nor ends with
    one.  The prose after the fence is arbitrary. *)
Theorem extract_tagged_fence pre tag body post input :
  input = pre ++ fence ++ tag ++ [nl] ++ body ++ [nl] ++ fence ++ post →
  tag ∈ [lit "terraform"; lit "hcl"] →
  contains fence pre = false →
  contains (nl :: fence) body = false →
  ∃ l r t,
    _extract_terraform_code input = Ok r ∧
    body = l ++ r ++ t ∧
    forallb isspace l = true ∧ forallb isspace t = true ∧
    (∀ c s, r = c :: s → isspace c = false) ∧
    (∀ c s, r = s ++ [c] → isspace c = false).
Proof.
  intros -> Htag Hpre Hbody.
  destruct (strip_spec body) as (l & t & Hb & Hl & Ht).
  exists l, (strip body), t. split_and!; [|done..|apply strip_ends|apply strip_ends].
  unfold _extract_terraform_code.
  by rewrite extract_with_capture, first_capture_known_tag.
Qed.

(** The example of the specification: the body of an [hcl] fence between
    two lines of prose ([34] is the double quote). *)
Lemma extract_tagged_fence_witness :
  ∃ l r t,
    _extract_terraform_code
      (lit "Here:" ++ [nl] ++ fence ++ lit "hcl" ++ [nl] ++
       (lit "resource " ++ [34] ++ lit "x" ++ [34] ++ lit " {}") ++
       [nl] ++ fence ++ [nl] ++ lit "Thanks")
    = Ok r ∧
    lit "resource " ++ [34] ++ lit "x" ++ [34] ++ lit " {}" = l ++ r ++ t ∧
    forallb isspace l = true ∧ forallb isspace t = true ∧
    (∀ c s, r = c :: s → isspace c = false) ∧
    (∀ c s, r = s ++ [c] → isspace c = false).
Proof.
  apply (extract_tagged_fence
           (lit "Here:" ++ [nl]) (lit "hcl")
           (lit "resource " ++ [34] ++ lit "x" ++ [34] ++ lit " {}")
           ([nl] ++ lit "Thanks")).
  - reflexivity.
  - apply list_elem_of_further, list_elem_of_here.
  - reflexivity.
  - reflexivity.
Defined.

(** C1 as stated fails in three ways.  A tag the first pattern does not
    know leaves the match to the inline pattern, whose group starts with
    the tag line; a fence in the prose before is matched first; and a
    newline followed by a fence inside the body ends the group there. *)
Lemma tagged_fence_body_not_returned :
  (_extract_terraform_code
     (lit "Here:" ++ [nl] ++ fence ++ lit "python" ++ [nl] ++
      lit "print(1)" ++ [nl] ++ fence ++ [nl] ++ lit "Thanks")
   = Ok (lit "python" ++ [nl] ++ lit "print(1)") ∧
   lit "python" ++ [nl] ++ lit "print(1)" ≠ lit "print(1)") ∧
  (_extract_terraform_code
     ((lit "The marker is " ++ fence ++ [nl]) ++ fence ++ lit "hcl" ++ [nl] ++
      lit "x = 1" ++ [nl] ++ fence ++ [])
   = Ok (fence ++ lit "hcl" ++ [nl] ++ lit "x = 1") ∧
   fence ++ lit "hcl" ++ [nl] ++ lit "x = 1" ≠ lit "x = 1") ∧
  (_extract_terraform_code
     ([] ++ fence ++ lit "hcl" ++ [nl] ++
      (lit "a" ++ [nl] ++ fence ++ [nl] ++ lit "b") ++ [nl] ++ fence ++ [])
   = Ok (lit "a") ∧
   lit "a" ≠ lit "a" ++ [nl] ++ fence ++ [nl] ++ lit "b").
Proof. split_and!; (reflexivity || discriminate). Qed.

(** C4: on an input without fence markers the extractor returns the input
    with the blanks at both ends removed and nothing else changed; and the
    same value is also the result of a successful extraction from a fenced
    input, so the caller cannot tell the two apart. *)
Theorem extract_no_fence x :
  contains fence x = false →
  _extract_terraform_code x = Ok (strip x) ∧
  (∃ l r, x = l ++ strip x ++ r ∧
          forallb isspace l = true ∧ forallb isspace r = true) ∧
  (∃ y g, first_capture code_patterns y = Some g ∧
          _extract_terraform_code y = _extract_terraform_code x).
Proof.
  intros Hx. split_and!.
  - by apply fence_free_extract.
  - apply strip_spec.
  - exists ([] ++ fence ++ lit "hcl" ++ [nl] ++ x ++ [nl] ++ fence ++ []), x.
    assert (Hc : first_capture code_patterns
              ([] ++ fence ++ lit "hcl" ++ [nl] ++ x ++ [nl] ++ fence ++ [])
            = Some x).
    { apply first_capture_known_tag;
        [apply list_elem_of_further, list_elem_of_here|done
        |by apply fence_free_closer]. }
    split; [done|]. unfold _extract_terraform_code at 1.
    rewrite extract_with_capture, Hc. by rewrite fence_free_extract.
Qed.

Lemma extract_no_fence_witness :
  _extract_terraform_code (lit "  plain text  ") = Ok (lit "plain text").
Proof.
  refine (proj1 (extract_no_fence (lit "  plain text  ") _)). reflexivity.
Defined.

(** *** Running the extractor on its own output *)

Lemma plain_within_tagged t1 t2 s :
  search (tagged_fence (Alt (Chars t1) (Chars t2))) s = None →
  search plain_fence s = None.
Proof.
  intros Ht. destruct (search plain_fence s) as [[[g from] rest]|] eqn:Hp;
    [|done].
  apply search_Some in Hp as (pre & -> & Hat & _).
  pose proof (search_None _ _ Ht pre from eq_refl) as Hno.
  rewrite match_at_tagged in Hno. rewrite match_at_plain_body in Hat.
  rewrite Hat in Hno.
  by repeat destruct (body_after _ from) in Hno.
Qed.

Lemma fence_free_fixpoint r :
  strip r = r → contains fence r = false → _extract_terraform_code r = Ok r.
Proof. intros Hr Hf. rewrite fence_free_extract by done. by rewrite Hr. Qed.

Lemma no_pair_no_match p s t :
  p ∈ code_patterns → search inline_fence s = None → substring_of t s →
  search p t = None.
Proof.
  intros Hp Hs (l & r & ->).
  destruct (search p t) as [[[g from] rest]|] eqn:Hsr; [|done].
  destruct (search_fence _ _ _ _ _ Hp Hsr) as (pre & o & c & ->).
  destruct (inline_complete (l ++ pre) (o ++ g ++ c) (rest ++ r)) as [m Hm].
  revert Hm. rewrite <-!app_assoc in *. by rewrite Hs.
Qed.

(** C7, as the code has it: running the extractor on its own output gives
    that output back whenever the output holds no fence marker, and whenever
    no newline-delimited fence matched the input (so the output came from
    the inline pattern or from the fallback). *)
Theorem extract_idempotent x r :
  _extract_terraform_code x = Ok r →
  search (tagged_fence (Alt (Chars (lit "terraform")) (Chars (lit "hcl")))) x
    = None
  ∨ contains fence r = false →
  _extract_terraform_code r = Ok r.
Proof.
  intros Hx [Ht|Hr]; [|by eapply fence_free_fixpoint, Hr; eapply extract_output_trimmed].
  pose proof (extract_output_trimmed _ _ Hx) as Htrim.
  revert Hx. unfold _extract_terraform_code at 1.
  rewrite extract_with_capture. unfold code_patterns, first_capture.
  rewrite Ht, (plain_within_tagged _ _ _ Ht).
  destruct (search inline_fence x) as [[[g from] rest]|] eqn:Hi;
    simpl; intros [= <-].
  - apply fence_free_fixpoint; [done|]. apply contains_false.
    apply search_Some in Hi as (pre & _ & Hat & _).
    intros Hf. apply (inline_capture_fence_free _ _ _ Hat).
    eapply substring_of_trans; [done|apply strip_substring].
  - unfold _extract_terraform_code.
    rewrite extract_with_capture, first_capture_None;
      [simpl; by rewrite Htrim|].
    intros p Hp. eapply no_pair_no_match; [done..|apply strip_substring].
Qed.

Lemma extract_idempotent_witness :
  _extract_terraform_code (lit "  plain text  ") = Ok (lit "plain text") ∧
  _extract_terraform_code (lit "plain text") = Ok (lit "plain text").
Proof.
  split; [reflexivity|].
  apply (extract_idempotent (lit "  plain text  ") (lit "plain text"));
    [reflexivity|left; reflexivity].
Defined.

(** C7 as stated fails: the body of an [hcl] fence that quotes an inline
    fence is returned with the quoted fence in it, and a second run extracts
    from inside that. *)
Lemma extract_twice_differs :
  _extract_terraform_code
    (fence ++ lit "hcl" ++ [nl] ++
     lit "# see " ++ fence ++ lit "x" ++ fence ++ [nl] ++ fence)
  = Ok (lit "# see " ++ fence ++ lit "x" ++ fence) ∧
  _extract_terraform_code (lit "# see " ++ fence ++ lit "x" ++ fence)
  = Ok (lit "x") ∧
  lit "x" ≠ lit "# see " ++ fence ++ lit "x" ++ fence.
Proof. split_and!; [reflexivity..|discriminate]. Qed.

(** ** The manifest splitter *)

Lemma find_sub_shorter sep s a b :
  sep ≠ [] → find_sub sep s = Some (a, b) → (length b < length s)%nat.
Proof.
  intros Hsep ->%find_sub_Some. rewrite !length_app.
  destruct sep; [done|]. simpl. lia.
Qed.

Lemma split_from_enough n sep s :
  sep ≠ [] → (length s ≤ n)%nat →
  split_from n sep s = split_from (length s) sep s.
Proof.
  intros Hsep. revert s.
  induction (lt_wf n) as [n _ IH]. intros s Hn.
  destruct n as [|n].
  { destruct s; [done|simpl in Hn; lia]. }
  destruct s as [|c s].
  - by destruct sep.
  - cbn [split_from length].
    destruct (find_sub sep (c :: s)) as [[a b]|] eqn:Hf; [|done].
    pose proof (find_sub_shorter _ _ _ _ Hsep Hf) as Hb. simpl in Hb, Hn.
    rewrite (IH n) by lia. by rewrite (IH (length s)) by lia.
Qed.

(** [split] cuts at the first occurrence and goes on with the rest. *)
Lemma split_unfold sep s :
  sep ≠ [] →
  split sep s =
  match find_sub sep s with
  | None => [s]
  | Some (a, b) => a :: split sep b
  end.
Proof.
  intros Hsep. unfold split.
  destruct s as [|c s].
  - by destruct sep.
  - cbn [split_from length].
    destruct (find_sub sep (c :: s)) as [[a b]|] eqn:Hf; [|done].
    pose proof (find_sub_shorter _ _ _ _ Hsep Hf) as Hb. simpl in Hb.
    by rewrite split_from_enough by (done || lia).
Qed.

Lemma split_from_substring n sep s d :
  d ∈ split_from n sep s → substring_of d s.
Proof.
  revert s. induction n as [|n IH]; intros s; simpl;
    destruct (find_sub sep s) as [[a b]|] eqn:Hf.
  - apply find_sub_Some in Hf as ->.
    rewrite !elem_of_cons, elem_of_nil. intros [->|[->|[]]].
    + by exists [], (sep ++ b).
    + exists (a ++ sep), []. by rewrite app_nil_r, <-app_assoc.
  - intros ->%list_elem_of_singleton. apply substring_of_refl.
  - apply find_sub_Some in Hf as ->.
    intros [->|Hd]%elem_of_cons.
    + by exists [], (sep ++ b).
    + apply substring_of_app_l, substring_of_app_l. by apply IH.
  - intros ->%list_elem_of_singleton. apply substring_of_refl.
Qed.

Lemma fragments_substring response doc :
  doc ∈ fragments response → substring_of doc response.
Proof.
  unfold fragments. intros [_ Hd]%list_elem_of_filter.
  apply list_elem_of_fmap in Hd as (piece & -> & Hp).
  eapply substring_of_trans; [apply strip_substring|].
  by eapply split_from_substring.
Qed.

Lemma bind_Ok {A B} (a : A) (f : A → result B) : (Ok a ≫= f) = f a.
Proof. done. Qed.

Section ManifestFacts.
Context `{Library}.

Lemma structured_key m doc :
  structured m doc =
  match declared_key doc with
  | Ok (Some k) => Ok (<[k := doc]> m)
  | Ok None => Ok m
  | Raise e => Raise e
  end.
Proof.
  unfold structured, declared_key.
  destruct (safe_load doc) as [v|e]; simpl; [|done].
  destruct (if truth v then py_in kind v else Ok false) as [[|]|e];
    simpl; [|done..].
  destruct (py_getitem v kind) as [w|e]; simpl; [|done].
  by destruct (py_lower w).
Qed.

Lemma generic_naming_key m doc :
  generic_naming m doc =
  Ok (match marker_key doc with Some k => <[k := doc]> m | None => m end).
Proof.
  unfold generic_naming, marker_key.
  by repeat destruct (contains _ doc).
Qed.

Lemma turn_store m doc :
  try_except (structured m doc) (generic_naming m doc) = Ok (store m doc).
Proof.
  rewrite structured_key, generic_naming_key. unfold store, key_of.
  by destruct (declared_key doc) as [[k|]|e].
Qed.

Lemma each_doc_fold docs m :
  each_doc docs m =
  Ok (foldl store m (filter (fun doc => doc ≠ []) (strip <$> docs))).
Proof.
  revert m. induction docs as [|d docs IH]; intros m; simpl; [done|].
  destruct (strip d) as [|c t] eqn:Hd.
  - rewrite filter_cons_False by naive_solver. apply IH.
  - rewrite filter_cons_True by done. rewrite <-Hd, turn_store. simpl.
    apply IH.
Qed.

Lemma parse_fold response :
  _parse_k8s_manifests response = Ok (foldl store ∅ (fragments response)).
Proof. apply each_doc_fold. Qed.

(** The last fragment stored under a key holds it. *)
Lemma fold_last docs1 d docs2 k m :
  key_of d = Some k →
  (∀ d', d' ∈ docs2 → key_of d' ≠ Some k) →
  foldl store m (docs1 ++ d :: docs2) !! k = Some d.
Proof.
  intros Hd Hlater. rewrite foldl_app. simpl.
  assert (Hk : store (foldl store m docs1) d !! k = Some d).
  { unfold store. rewrite Hd. apply lookup_insert_eq. }
  revert Hk. generalize (store (foldl store m docs1) d) as m'.
  induction docs2 as [|x docs2 IH]; intros m' Hk; simpl; [done|].
  apply IH.
  - intros d' Hd'. apply Hlater. set_solver.
  - unfold store. destruct (key_of x) as [k'|] eqn:Hx; [|done].
    rewrite lookup_insert_ne; [done|]. intros ->. by apply (Hlater x); set_solver.
Qed.

(** Every entry is a fragment, under the key the loop found for it. *)
Lemma fold_entry docs m k v :
  foldl store m docs !! k = Some v →
  m !! k = Some v ∨ (v ∈ docs ∧ key_of v = Some k).
Proof.
  revert m. induction docs as [|d docs IH]; intros m; simpl; [by left|].
  intros [Hm|[Hv Hk]]%IH.
  - unfold store in Hm. destruct (key_of d) as [k'|] eqn:Hd; [|by left].
    destruct (decide (k' = k)) as [->|Hne].
    + rewrite lookup_insert_eq in Hm. injection Hm as <-.
      right. split; [set_solver|done].
    + rewrite lookup_insert_ne in Hm by done. by left.
  - right. split; [set_solver|done].
Qed.

Lemma fold_dom docs m :
  dom (foldl store m docs) = dom m ∪ list_to_set (omap key_of docs).
Proof.
  revert m. induction docs as [|d docs IH]; intros m; simpl.
  - set_solver.
  - rewrite IH. unfold store.
    destruct (key_of d) as [k|]; simpl; [|done].
    rewrite dom_insert_L. set_solver.
Qed.

Lemma size_list_to_set_le (l : list pykey) :
  (size (list_to_set l : gset pykey) ≤ length l)%nat.
Proof.
  induction l as [|x l IH];
    [by rewrite list_to_set_nil, size_empty|].
  rewrite list_to_set_cons. simpl length.
  destruct (decide (x ∈ (list_to_set l : gset pykey))) as [Hin|Hout].
  - replace ({[x]} ∪ list_to_set l) with (list_to_set l : gset pykey)
      by set_solver. lia.
  - rewrite size_union by set_solver. rewrite size_singleton. lia.
Qed.

Lemma omap_filter_length docs :
  (length (omap key_of docs) +
   length (filter (fun d => key_of d = None) docs) = length docs)%nat.
Proof.
  induction docs as [|d docs IH]; [done|].
  cbn [omap list_omap]. destruct (key_of d) as [k|] eqn:Hd.
  - rewrite filter_cons_False by (by rewrite Hd). simpl length. lia.
  - rewrite filter_cons_True by done. simpl length. lia.
Qed.

Lemma fold_size docs :
  (size (foldl store ∅ docs) ≤ length (omap key_of docs))%nat ∧
  (NoDup (omap key_of docs) →
   size (foldl store ∅ docs) = length (omap key_of docs)).
Proof.
  rewrite <-size_dom, fold_dom, dom_empty_L, (left_id_L ∅ (∪)).
  split; [apply size_list_to_set_le|]. apply size_list_to_set.
Qed.

Lemma declares_key doc k :
  declares doc k → key_of doc = Some (KStr (str_lower k)).
Proof.
  intros (_ & items & Hload & Hget). unfold key_of, declared_key.
  assert (Hin : py_in kind (YMap items) = Ok true).
  { simpl in *. f_equal. apply existsb_exists.
    destruct (List.find _ items) as [kv|] eqn:Hfind; [|done].
    exists kv. apply find_some in Hfind. naive_solver. }
  assert (Ht : truth (YMap items) = true).
  { destruct items; [by simpl in Hget|done]. }
  rewrite Hload, !bind_Ok, Ht, Hin, !bind_Ok, Hget. done.
Qed.

Lemma unrecognised_key doc : unrecognised doc = true → key_of doc = None.
Proof.
  unfold unrecognised, key_of.
  by destruct (declared_key doc) as [[k|]|e], (marker_key doc).
Qed.

End ManifestFacts.

(** *** Claims about the splitter *)

Section ManifestClaims.
Context `{Library}.

(** C2, as the code has it: a response that the separator cuts into three
    fragments, each declaring a kind, the three kinds distinct once
    lower-cased, gives a mapping with exactly three entries: the
    lower-cased kinds, each with the trimmed text of its fragment. *)
Theorem three_documents response f1 f2 f3 k1 k2 k3 :
  split (lit "---") response = [f1; f2; f3] →
  declares (strip f1) k1 →
  declares (strip f2) k2 →
  declares (strip f3) k3 →
  NoDup [str_lower k1; str_lower k2; str_lower k3] →
  ∃ m, _parse_k8s_manifests response = Ok m ∧
       size m = 3%nat ∧
       dom m = {[ KStr (str_lower k1); KStr (str_lower k2);
                  KStr (str_lower k3) ]} ∧
       m !! KStr (str_lower k1) = Some (strip f1) ∧
       m !! KStr (str_lower k2) = Some (strip f2) ∧
       m !! KStr (str_lower k3) = Some (strip f3).
Proof.
  intros Hsplit H1 H2 H3 Hdistinct.
  apply NoDup_cons in Hdistinct as [Hn1 Hdistinct].
  apply NoDup_cons in Hdistinct as [Hn2 _].
  assert (Hfr : fragments response = [strip f1; strip f2; strip f3]).
  { unfold fragments. rewrite Hsplit. simpl fmap.
    destruct H1 as [? _], H2 as [? _], H3 as [? _].
    by rewrite !filter_cons_True, filter_nil by done. }
  eexists. split; [apply parse_fold|]. rewrite Hfr. simpl.
  unfold store.
  rewrite (declares_key _ _ H1), (declares_key _ _ H2),
    (declares_key _ _ H3).
  assert (KStr (str_lower k1) ≠ KStr (str_lower k2)) by set_solver.
  assert (KStr (str_lower k1) ≠ KStr (str_lower k3)) by set_solver.
  assert (KStr (str_lower k2) ≠ KStr (str_lower k3)) by set_solver.
  split_and!.
  - rewrite !map_size_insert_None, map_size_empty; [done|..];
      by rewrite ?lookup_insert_ne, ?lookup_empty.
  - rewrite !dom_insert_L, dom_empty_L. set_solver.
  - rewrite 2!lookup_insert_ne by done. apply lookup_insert_eq.
  - rewrite lookup_insert_ne by done. apply lookup_insert_eq.
  - apply lookup_insert_eq.
Qed.

(** C5, as the code has it: when two fragments declare kinds that agree
    once lower-cased, and no fragment after the later of them is stored
    under that key (by a declared kind or by a marker word), the mapping
    has a single entry for the key, holding the trimmed text of the later
    fragment. *)
Theorem last_write_wins response docs1 d1 docs2 d2 docs3 k1 k2 :
  split (lit "---") response = docs1 ++ d1 :: docs2 ++ d2 :: docs3 →
  declares (strip d1) k1 →
  declares (strip d2) k2 →
  str_lower k1 = str_lower k2 →
  (∀ d, d ∈ docs3 → key_of (strip d) ≠ Some (KStr (str_lower k2))) →
  ∃ m, _parse_k8s_manifests response = Ok m ∧
       m !! KStr (str_lower k1) = Some (strip d2) ∧
       ∀ v, (KStr (str_lower k1), v) ∈ map_to_list m → v = strip d2.
Proof.
  intros Hsplit H1 H2 Hk Hlater.
  eexists. split; [apply parse_fold|].
  assert (Hm : foldl store ∅ (fragments response) !! KStr (str_lower k1)
               = Some (strip d2)).
  { unfold fragments. rewrite Hsplit.
    change (docs1 ++ d1 :: docs2 ++ d2 :: docs3)
      with (docs1 ++ (d1 :: docs2) ++ d2 :: docs3).
    rewrite (app_assoc docs1 (d1 :: docs2)), fmap_app, fmap_cons.
    rewrite filter_app, filter_cons_True by apply H2.
    rewrite Hk. apply fold_last; [by apply declares_key|].
    intros d' [_ Hd']%list_elem_of_filter.
    apply list_elem_of_fmap in Hd' as (d & -> & Hd). by apply Hlater. }
  split; [done|]. intros v Hv%elem_of_map_to_list. congruence.
Qed.

End ManifestClaims.

Lemma three_documents_witness :
  ∃ m, @_parse_k8s_manifests sample_library
         (lit "kind: Deployment" ++ [nl] ++ lit "---" ++ [nl] ++
          lit "kind: Service" ++ [nl] ++ lit "---" ++ [nl] ++
          lit "kind: Ingress" ++ [nl]) = Ok m ∧
       size m = 3%nat ∧
       dom m = {[ KStr (lit "deployment"); KStr (lit "service");
                  KStr (lit "ingress") ]} ∧
       m !! KStr (lit "deployment") = Some (lit "kind: Deployment") ∧
       m !! KStr (lit "service") = Some (lit "kind: Service") ∧
       m !! KStr (lit "ingress") = Some (lit "kind: Ingress").
Proof.
  refine (@three_documents sample_library _
            (lit "kind: Deployment" ++ [nl])
            ([nl] ++ lit "kind: Service" ++ [nl])
            ([nl] ++ lit "kind: Ingress" ++ [nl])
            (lit "Deployment") (lit "Service") (lit "Ingress") _ _ _ _ _).
  - reflexivity.
  - split; [discriminate|]. eexists. split; reflexivity.
  - split; [discriminate|]. eexists. split; reflexivity.
  - split; [discriminate|]. eexists. split; reflexivity.
  - repeat (apply NoDup_cons; split; [vm_compute; set_solver|]).
    apply NoDup_nil. done.
Defined.

Lemma last_write_wins_witness :
  ∃ m, @_parse_k8s_manifests sample_library
         (lit "kind: Service" ++ [nl] ++ lit "name: a" ++ [nl] ++ lit "---" ++
          [nl] ++ lit "kind: Service" ++ [nl] ++ lit "name: b") = Ok m ∧
       m !! KStr (lit "service")
       = Some (lit "kind: Service" ++ [nl] ++ lit "name: b") ∧
       ∀ v, (KStr (lit "service"), v) ∈ map_to_list m →
            v = lit "kind: Service" ++ [nl] ++ lit "name: b".
Proof.
  refine (@last_write_wins sample_library _
            [] (lit "kind: Service" ++ [nl] ++ lit "name: a" ++ [nl])
            [] ([nl] ++ lit "kind: Service" ++ [nl] ++ lit "name: b") []
            (lit "Service") (lit "Service") _ _ _ _ _).
  - reflexivity.
  - split; [discriminate|]. eexists. split; reflexivity.
  - split; [discriminate|]. eexists. split; reflexivity.
  - reflexivity.
  - intros d Hd. by apply elem_of_nil in Hd.
Defined.

(** C2 as stated fails: [Service], [service] and [Ingress] are three
    distinct kinds, and the mapping has two entries, the second fragment
    having taken the place of the first. *)
Lemma kinds_differing_in_case_collide :
  split (lit "---")
    (lit "kind: Service" ++ [nl] ++ lit "---" ++ [nl] ++ lit "kind: service" ++
     [nl] ++ lit "---" ++ [nl] ++ lit "kind: Ingress")
  = [ lit "kind: Service" ++ [nl]; [nl] ++ lit "kind: service" ++ [nl];
      [nl] ++ lit "kind: Ingress" ] ∧
  @declares more_library (lit "kind: Service") (lit "Service") ∧
  @declares more_library (lit "kind: service") (lit "service") ∧
  @declares more_library (lit "kind: Ingress") (lit "Ingress") ∧
  NoDup [lit "Service"; lit "service"; lit "Ingress"] ∧
  @_parse_k8s_manifests more_library
    (lit "kind: Service" ++ [nl] ++ lit "---" ++ [nl] ++ lit "kind: service" ++
     [nl] ++ lit "---" ++ [nl] ++ lit "kind: Ingress")
  = Ok (<[ KStr (lit "ingress") := lit "kind: Ingress" ]>
          {[ KStr (lit "service") := lit "kind: service" ]}) ∧
  size (<[ KStr (lit "ingress") := lit "kind: Ingress" ]>
          ({[ KStr (lit "service") := lit "kind: service" ]}
             : gmap pykey str)) = 2%nat.
Proof.
  split_and!; try reflexivity.
  - split; [discriminate|]. eexists. split; reflexivity.
  - split; [discriminate|]. eexists. split; reflexivity.
  - split; [discriminate|]. eexists. split; reflexivity.
  - repeat (apply NoDup_cons; split; [vm_compute; set_solver|]).
    apply NoDup_nil. done.
Qed.

(** C5 as stated fails: after two fragments that declare [Service], a
    fragment that does not load and holds the word [Service] is stored
    under the same key, and the mapping holds that one. *)
Lemma later_marker_takes_the_key :
  @declares sample_library (lit "kind: Service" ++ [nl] ++ lit "name: a")
    (lit "Service") ∧
  @declares sample_library (lit "kind: Service" ++ [nl] ++ lit "name: b")
    (lit "Service") ∧
  @_parse_k8s_manifests sample_library
    (lit "kind: Service" ++ [nl] ++ lit "name: a" ++ [nl] ++ lit "---" ++
     [nl] ++ lit "kind: Service" ++ [nl] ++ lit "name: b" ++ [nl] ++
     lit "---" ++ [nl] ++ lit "Service: [")
  = Ok {[ KStr (lit "service") := lit "Service: [" ]} ∧
  lit "Service: [" ≠ lit "kind: Service" ++ [nl] ++ lit "name: b".
Proof.
  split_and!; try reflexivity; try discriminate.
  - split; [discriminate|]. eexists. split; reflexivity.
  - split; [discriminate|]. eexists. split; reflexivity.
Qed.

Section DroppedFragments.
Context `{Library}.

Lemma absent_without_key response doc k :
  key_of doc = None →
  foldl store ∅ (fragments response) !! k ≠ Some doc.
Proof.
  intros Hnone [Hm|[_ Hk]]%fold_entry; [done|congruence].
Qed.

Lemma unrecognised_count docs :
  (length (filter (fun d => unrecognised d = true) docs)
   ≤ length (filter (fun d => key_of d = None) docs))%nat.
Proof.
  induction docs as [|d docs IH]; [done|].
  destruct (unrecognised d) eqn:Hu.
  - rewrite !filter_cons_True by (done || by apply unrecognised_key).
    simpl. lia.
  - rewrite (filter_cons_False (fun d => unrecognised d = true))
      by (by rewrite Hu).
    destruct (decide (key_of d = None)).
    + rewrite filter_cons_True by done. simpl. lia.
    + by rewrite filter_cons_False by done.
Qed.

Lemma unrecognised_count_eq docs :
  (∀ d, d ∈ docs → unrecognised d = false → is_Some (key_of d)) →
  length (filter (fun d => unrecognised d = true) docs)
  = length (filter (fun d => key_of d = None) docs).
Proof.
  induction docs as [|d docs IH]; intros Hall; [done|].
  destruct (unrecognised d) eqn:Hu.
  - rewrite !filter_cons_True by (done || by apply unrecognised_key).
    simpl. f_equal. apply IH. intros d' Hd'. apply Hall. set_solver.
  - destruct (Hall d) as [k Hk]; [set_solver|done|].
    rewrite !filter_cons_False by (by rewrite ?Hu, ?Hk).
    apply IH. intros d' Hd'. apply Hall. set_solver.
Qed.

(** C3, as the code has it: a fragment that neither the structured parse
    nor the marker search gives a key is absent from the mapping, and the
    call returns normally.  The mapping then has at most as many entries
    as there are non-empty fragments less the fragments of that sort; it
    has exactly that many when every other fragment is stored and the
    stored ones come under pairwise distinct keys. *)
Theorem unrecognised_dropped response :
  ∃ m, _parse_k8s_manifests response = Ok m ∧
       (∀ doc, doc ∈ fragments response → unrecognised doc = true →
               ∀ k, m !! k ≠ Some doc) ∧
       (size m +
        length (filter (fun d => unrecognised d = true) (fragments response))
        ≤ length (fragments response))%nat ∧
       (NoDup (omap key_of (fragments response)) →
        (∀ d, d ∈ fragments response → unrecognised d = false →
              is_Some (key_of d)) →
        (size m +
         length (filter (fun d => unrecognised d = true)
                   (fragments response))
         = length (fragments response))%nat).
Proof.
  eexists. split; [apply parse_fold|]. split_and!.
  - intros doc _ Hu%unrecognised_key k. by apply absent_without_key.
  - pose proof (proj1 (fold_size (fragments response))).
    pose proof (omap_filter_length (fragments response)).
    pose proof (unrecognised_count (fragments response)). lia.
  - intros Hnd Hall.
    pose proof (proj2 (fold_size (fragments response)) Hnd).
    pose proof (omap_filter_length (fragments response)).
    pose proof (unrecognised_count_eq (fragments response) Hall). lia.
Qed.

(** C10, as the code has it: the marker search runs only when the [try]
    body raised, so every entry of the mapping was either stored by the
    [try] body or named by a marker after an exception; and a fragment
    that loads and on which the test [yaml_doc and 'kind' in yaml_doc] is
    false without raising is dropped, whatever marker words it holds. *)
Theorem fallback_only_on_exception response :
  ∃ m, _parse_k8s_manifests response = Ok m ∧
       (∀ k doc, m !! k = Some doc →
                 structured ∅ doc = Ok {[k := doc]} ∨
                 ∃ e, structured ∅ doc = Raise e ∧
                      generic_naming ∅ doc = Ok {[k := doc]}) ∧
       (∀ doc v, doc ∈ fragments response →
                 safe_load doc = Ok v →
                 truth v = false ∨ py_in kind v = Ok false →
                 ∀ k, m !! k ≠ Some doc).
Proof.
  eexists. split; [apply parse_fold|]. split.
  - intros k doc [Hm|[_ Hk]]%fold_entry; [done|].
    rewrite structured_key, generic_naming_key. unfold key_of in Hk.
    destruct (declared_key doc) as [[k'|]|e]; simplify_eq.
    + left. by rewrite insert_empty.
    + right. exists e. rewrite Hk. by rewrite insert_empty.
  - intros doc v _ Hload Htest k. apply absent_without_key.
    unfold key_of, declared_key. rewrite Hload, bind_Ok.
    destruct Htest as [->|Hin]; [done|].
    destruct (truth v); by rewrite ?Hin.
Qed.

(** C8: what the extractors return is cut out of the one response they
    are given: the extracted code is a contiguous substring of the
    response, and so is every value of the mapping. *)
Theorem outputs_from_one_response :
  (∀ response r, _extract_terraform_code response = Ok r →
                 substring_of r response) ∧
  (∀ response m k v, _parse_k8s_manifests response = Ok m →
                     m !! k = Some v → substring_of v response).
Proof.
  split; [apply extract_substring|].
  intros response m k v. rewrite parse_fold. intros [= <-].
  intros [Hm|[Hv _]]%fold_entry; [done|]. by apply fragments_substring.
Qed.

(** C6: both extractors return on every input and never raise. *)
Theorem extractors_total :
  (∀ response, ∃ r, _extract_terraform_code response = Ok r) ∧
  (∀ response, ∃ m, _parse_k8s_manifests response = Ok m).
Proof.
  split; intros response.
  - eexists. apply extract_with_capture.
  - eexists. apply parse_fold.
Qed.

End DroppedFragments.

(** C3 as stated fails: of two fragments without a kind or a marker the
    mapping keeps neither, so it has two entries fewer than there are
    non-empty fragments. *)
Lemma two_dropped_fragments :
  @_parse_k8s_manifests sample_library (lit "foo---bar") = Ok ∅ ∧
  fragments (lit "foo---bar") = [lit "foo"; lit "bar"] ∧
  @unrecognised sample_library (lit "foo") = true ∧
  size (∅ : gmap pykey str) ≠ (length [lit "foo"; lit "bar"] - 1)%nat.
Proof. split_and!; [reflexivity..|]. by rewrite map_size_empty. Qed.

(** C10 as stated fails: a plain scalar that holds the word [kind] loads
    as a string, the subscript raises, and the marker search names it. *)
Lemma scalar_with_kind_is_kept :
  @safe_load sample_library (lit "kind of Deployment")
  = Ok (YStr (lit "kind of Deployment")) ∧
  @_parse_k8s_manifests sample_library (lit "kind of Deployment")
  = Ok {[ KStr (lit "deployment") := lit "kind of Deployment" ]}.
Proof. split; reflexivity. Qed.

(** ** The orchestration *)

Lemma prompts_sent_app t evs :
  prompts_sent (t ++ evs) = prompts_sent t ++ prompts_sent evs.
Proof. apply omap_app. Qed.

Lemma calls_made_app t evs :
  calls_made (t ++ evs) = (calls_made t + length (prompts_sent evs))%nat.
Proof. unfold calls_made. by rewrite prompts_sent_app, length_app. Qed.

Lemma yields_bind_ok {A B} (c : M A) (f : A → M B) t a evs1 r evs2 :
  yields c t (Ok a) evs1 →
  yields (f a) (t ++ evs1) r evs2 →
  yields (c ≫= f) t r (evs1 ++ evs2).
Proof.
  unfold yields, mbind, M_bind. intros -> ->. by rewrite app_assoc.
Qed.

Lemma yields_bind_raise {A B} (c : M A) (f : A → M B) t e evs :
  yields c t (Raise e) evs → yields (c ≫= f) t (Raise e) evs.
Proof. unfold yields, mbind, M_bind. by intros ->. Qed.

Lemma yields_ret {A} (a : A) t : yields (mret a) t (Ok a) [].
Proof. unfold yields, mret, M_ret. by rewrite app_nil_r. Qed.

Lemma yields_emit ev t : yields (emit ev) t (Ok ()) [ev].
Proof. done. Qed.

Lemma yields_pure {A} (r : result A) t : yields (pure r) t r [].
Proof. unfold yields, pure. by rewrite app_nil_r. Qed.

Lemma yields_logged_ok {A} msg (body : M A) t a evs :
  yields body t (Ok a) evs → yields (logged msg body) t (Ok a) evs.
Proof. unfold yields, logged. by intros ->. Qed.

Lemma yields_logged_raise {A} msg (body : M A) t e evs :
  yields body t (Raise e) evs →
  yields (logged msg body) t (Raise e) (evs ++ [LogError msg e]).
Proof. unfold yields, logged. intros ->. by rewrite app_assoc. Qed.

Section PipelineFacts.
Context `{Library} `{Endpoint} (P : prompts).

Lemma call_ok prompt t text :
  generate_content (calls_made t) prompt = Ok text →
  yields (_call_gemini_api prompt) t (Ok text) [Call prompt].
Proof. unfold yields, _call_gemini_api, logged. by intros ->. Qed.

Lemma call_raise prompt t e :
  generate_content (calls_made t) prompt = Raise e →
  yields (_call_gemini_api prompt) t (Raise e)
    [Call prompt; LogError "Gemini API call failed" e].
Proof.
  unfold yields, _call_gemini_api, logged. intros ->.
  by rewrite <-app_assoc.
Qed.

Lemma save_manifests_ok items t :
  yields (save_manifests items) t (Ok ()) (manifest_events items).
Proof.
  revert t. induction items as [|[name content] items IH]; intros t.
  - apply yields_ret.
  - change (manifest_events ((name, content) :: items))
      with ([WriteFile (ManifestFile (format_key name)) content] ++
            [LogInfo "Generated Kubernetes manifest"] ++
            manifest_events items).
    simpl save_manifests.
    eapply yields_bind_ok; [apply yields_emit|].
    eapply yields_bind_ok; [apply yields_emit|].
    apply IH.
Qed.

Lemma manifest_events_no_call items :
  prompts_sent (manifest_events items) = [].
Proof.
  unfold manifest_events.
  induction items as [|item items IH]; [done|].
  rewrite bind_cons, prompts_sent_app, IH. done.
Qed.

End PipelineFacts.

Section PipelineRun.
Context `{Library} `{Endpoint} (P : prompts).

Lemma yields_extract patterns response t :
  yields (pure (extract_with patterns response)) t
    (Ok (strip (default response (first_capture patterns response)))) [].
Proof. rewrite extract_with_capture. apply yields_pure. Qed.

Lemma yields_parse response t :
  yields (pure (_parse_k8s_manifests response)) t
    (Ok (foldl store ∅ (fragments response))) [].
Proof. rewrite parse_fold. apply yields_pure. Qed.

Lemma test_connection_ok t text :
  generate_content (calls_made t) test_prompt = Ok text →
  yields test_gemini_connection t (Ok true)
    [Call test_prompt; LogInfo "Gemini API test successful"].
Proof.
  intros Hc. unfold yields, test_gemini_connection.
  rewrite (call_ok _ _ _ Hc). by rewrite <-app_assoc.
Qed.

(** Evaluate a computation along the outcomes of the endpoint that are
    among the hypotheses. *)
Ltac count_calls :=
  rewrite ?calls_made_app, ?prompts_sent_app, ?manifest_events_no_call;
  simpl length; rewrite ?Nat.add_0_r, <-?Nat.add_assoc; simpl Nat.add.

Ltac head_of c :=
  lazymatch c with
  | ?f _ => head_of f
  | _ => c
  end.

Ltac run :=
  lazymatch goal with
  | |- yields (mret _) _ _ _ => apply yields_ret
  | |- yields (emit _) _ _ _ => apply yields_emit
  | |- yields (pure (_parse_k8s_manifests _)) _ _ _ => apply yields_parse
  | |- yields (pure _) _ _ _ => apply yields_extract
  | |- yields (save_manifests _) _ _ _ => apply save_manifests_ok
  | |- yields (_call_gemini_api _) _ (Ok _) _ =>
      eapply call_ok; count_calls; eassumption
  | |- yields (_call_gemini_api _) _ (Raise _) _ =>
      eapply call_raise; count_calls; eassumption
  | |- yields (logged _ _) _ (Ok _) _ => apply yields_logged_ok; run
  | |- yields (logged _ _) _ (Raise _) _ => eapply yields_logged_raise; run
  | |- yields (_ ≫= _) _ (Ok _) _ =>
      eapply yields_bind_ok; [run|cbv beta; run]
  | |- yields (_ ≫= _) _ (Raise _) _ =>
      first [ eapply yields_bind_raise; run
            | eapply yields_bind_ok; [run|cbv beta; run] ]
  | |- yields ?c _ _ _ => let h := head_of c in unfold h; run
  end.

Ltac earlier Hbefore i :=
  let text := fresh "text" in
  let Hcall := fresh "Hcall" in
  destruct (Hbefore i _ ltac:(lia) eq_refl) as [text Hcall].

Ltac in_suffix :=
  rewrite <-?app_assoc; simpl;
  repeat first
    [ exact (reflexivity _) | apply suffix_cons_r | apply suffix_app_r ].

(** C9: when the call to the endpoint that sends the [k]-th prompt of the
    sequence raises [e], the earlier calls having returned, the run raises
    that same [e]; the endpoint has been sent the first [k] prompts and
    the failing one, each once and nothing after; and the trace ends with
    the failing call and the three error records of the call, of its step
    and of the pipeline.  The [__main__] block, after a successful
    connection test, lets the exception out unchanged. *)
Theorem generation_failure_propagates k p e t0 :
  sequence P !! k = Some p →
  (∀ i q, (i < k)%nat → sequence P !! i = Some q →
          ∃ text, generate_content (calls_made t0 + i) q = Ok text) →
  generate_content (calls_made t0 + k) p = Raise e →
  ∃ evs msg,
    run_full_pipeline P t0 = (Raise e, t0 ++ evs) ∧
    prompts_sent evs = take (S k) (sequence P) ∧
    [ Call p; LogError "Gemini API call failed" e; LogError msg e;
      LogError "Pipeline failed" e ] `suffix_of` evs ∧
    (∀ t text,
       t0 = t ++ [ Call test_prompt; LogInfo "Gemini API test successful";
                   PrintLine "Gemini API connection successful!" ] →
       generate_content (calls_made t) test_prompt = Ok text →
       main P t = (Raise e, t0 ++ evs)).
Proof.
  intros Hseq Hbefore Hk.
  assert (Hrun : ∃ evs msg,
    yields (run_full_pipeline P) t0 (Raise e) evs ∧
    prompts_sent evs = take (S k) (sequence P) ∧
    [ Call p; LogError "Gemini API call failed" e; LogError msg e;
      LogError "Pipeline failed" e ] `suffix_of` evs).
  { do 8 (try destruct k as [|k]); [..|done];
      try earlier Hbefore 0%nat; try earlier Hbefore 1%nat;
      try earlier Hbefore 2%nat; try earlier Hbefore 3%nat;
      try earlier Hbefore 4%nat; try earlier Hbefore 5%nat;
      try earlier Hbefore 6%nat;
      injection Hseq as <-; rewrite ?Nat.add_0_r in *;
      eexists _, _; (split_and!; [run| |in_suffix]);
      by rewrite ?prompts_sent_app, ?manifest_events_no_call. }
  destruct Hrun as (evs & msg & Hrun & Hsent & Hlast).
  exists evs, msg. split_and!; [done..|].
  intros t text Ht0 Htest.
  assert (Hmain : yields (main P) t (Raise e)
            ([ Call test_prompt; LogInfo "Gemini API test successful" ] ++
             [ PrintLine "Gemini API connection successful!" ] ++ evs)).
  { unfold main.
    eapply yields_bind_ok; [by eapply test_connection_ok|]. cbv beta iota.
    eapply yields_bind_ok; [apply yields_emit|]. cbv beta.
    rewrite <-app_assoc. simpl app. by rewrite <-Ht0. }
  unfold yields in Hmain. rewrite Hmain, Ht0. by rewrite <-!app_assoc.
Qed.

End PipelineRun.

(** The connection test and the first three generation calls succeed, the
    call for the manifests fails. *)
Lemma generation_failure_propagates_witness :
  let t0 := [ Call test_prompt; LogInfo "Gemini API test successful";
              PrintLine "Gemini API connection successful!" ] in
  ∃ evs msg,
    @run_full_pipeline sample_library sample_endpoint sample_prompts t0
    = (Raise (EndpointError 429), t0 ++ evs) ∧
    prompts_sent evs = take 4 (sequence sample_prompts) ∧
    [ Call (lit "manifests");
      LogError "Gemini API call failed" (EndpointError 429);
      LogError msg (EndpointError 429);
      LogError "Pipeline failed" (EndpointError 429) ] `suffix_of` evs ∧
    @main sample_library sample_endpoint sample_prompts []
    = (Raise (EndpointError 429), t0 ++ evs).
Proof.
  intros t0.
  destruct (@generation_failure_propagates sample_library sample_endpoint
              sample_prompts 3 (lit "manifests") (EndpointError 429) t0)
    as (evs & msg & Hrun & Hsent & Hlast & Hmain).
  - reflexivity.
  - intros i q Hi _. destruct i as [|[|[|i]]]; [by eexists..|lia].
  - reflexivity.
  - exists evs, msg. split_and!; [done..|].
    by apply (Hmain [] (fence ++ lit "hcl" ++ [nl] ++ lit "x = 1" ++ [nl] ++
                        fence)).
Defined.

(** One fragment of three has neither a kind nor a marker: the mapping has
    one entry fewer than there are fragments. *)
Lemma unrecognised_dropped_witness :
  ∃ m, @_parse_k8s_manifests sample_library
         (lit "kind: Deployment" ++ [nl] ++ lit "---" ++ [nl] ++
          lit "foo" ++ [nl] ++ lit "---" ++ [nl] ++ lit "kind: Service")
       = Ok m ∧
       (∀ k, m !! k ≠ Some (lit "foo")) ∧ (size m + 1 = 3)%nat.
Proof.
  destruct (@unrecognised_dropped sample_library
              (lit "kind: Deployment" ++ [nl] ++ lit "---" ++ [nl] ++
               lit "foo" ++ [nl] ++ lit "---" ++ [nl] ++ lit "kind: Service"))
    as (m & Hm & Habsent & _ & Hsize).
  exists m. split_and!; [done| |].
  - apply Habsent; [|reflexivity].
    apply list_elem_of_further, list_elem_of_here.
  - apply Hsize.
    + vm_compute. repeat (apply NoDup_cons; split; [set_solver|]).
      apply NoDup_nil. done.
    + intros d Hd Hu. vm_compute in Hd.
      repeat (apply elem_of_cons in Hd as [->|Hd]);
        [by eexists|discriminate Hu|by eexists|by apply elem_of_nil in Hd].
Defined.

(** A plain scalar that is a marker word loads as a string without the word
    [kind] in it, and is dropped. *)
Lemma fallback_only_on_exception_witness :
  ∃ m, @_parse_k8s_manifests sample_library (lit "Deployment") = Ok m ∧
       ∀ k, m !! k ≠ Some (lit "Deployment").
Proof.
  destruct (@fallback_only_on_exception sample_library (lit "Deployment"))
    as (m & Hm & _ & Hdrop).
  exists m. split; [done|].
  apply (Hdrop (lit "Deployment") (YStr (lit "Deployment")));
    [apply list_elem_of_here|reflexivity|right; reflexivity].
Defined.

(** * Further properties *)

(** ** The sibling extractors *)

(** What follows a pattern is tried on a suffix of the subject. *)
Lemma lazy_star_reaches {R} (k : str → option R) s x :
  lazy_star k s = Some x → ∃ s', s' `suffix_of` s ∧ k s' = Some x.
Proof.
  induction s as [|c s IH]; simpl.
  - destruct (k []) eqn:Hk; [|done]. intros [= <-]. by exists [].
  - destruct (k (c :: s)) eqn:Hk.
    + intros [= <-]. by exists (c :: s).
    + intros (s' & Hs' & Hx)%IH. exists s'. split; [|done].
      by apply suffix_cons_r.
Qed.

Lemma mt_reaches {R} r s cap (k : str → option str → option R) x :
  mt r s cap k = Some x →
  ∃ s' cap', s' `suffix_of` s ∧ k s' cap' = Some x.
Proof.
  revert s cap k.
  induction r as [l|a IHa b IHb|a IHa b IHb|a IHa| |a IHa];
    intros s cap k; simpl.
  - destruct (startswith l s) eqn:Hl; [|done]. intros Hk.
    exists (drop (length l) s), cap. split; [apply suffix_drop|done].
  - intros (s1 & c1 & Hs1 & (s2 & c2 & Hs2 & Hk)%IHb)%IHa.
    exists s2, c2. split; [by etrans|done].
  - destruct (mt a s cap k) eqn:Ha.
    + intros [= <-]. by eapply IHa.
    + by apply IHb.
  - destruct (mt a s cap k) eqn:Ha.
    + intros [= <-]. by eapply IHa.
    + intros Hk. by exists s, cap.
  - intros (s' & Hs' & Hk)%lazy_star_reaches. by exists s', cap.
  - intros (s' & c' & Hs' & Hk)%IHa. by eexists s', _.
Qed.

(** A match of a newline-delimited fence, whatever the tags: a fence, a
    line, the group, a newline, a fence. *)
Lemma tagged_shape tag s g rest :
  match_at (tagged_fence tag) s = Some (g, rest) →
  ∃ o, s = fence ++ (o ++ g ++ [nl]) ++ fence ++ rest.
Proof.
  unfold match_at, tagged_fence. rewrite mt_Seq, mt_Chars.
  destruct (startswith fence s) eqn:Hf; [|done].
  apply startswith_prefix in Hf. rewrite mt_Seq.
  intros (s1 & c1 & [u Hu] & Hk)%mt_reaches.
  rewrite mt_Seq, mt_Chars in Hk.
  destruct (startswith [nl] s1) eqn:Hn; [|done].
  apply startswith_prefix in Hn. rewrite captured_body in Hk.
  apply find_sub_Some in Hk.
  exists (u ++ [nl]). rewrite Hf, Hu, Hn, Hk. by rewrite <-!app_assoc.
Qed.

Lemma newline_fence_shape p s g rest :
  p = plain_fence ∨ (∃ tag, p = tagged_fence tag) →
  match_at p s = Some (g, rest) →
  ∃ o, s = fence ++ (o ++ g ++ [nl]) ++ fence ++ rest.
Proof.
  intros [->|[tag ->]]; [|apply tagged_shape].
  rewrite match_at_plain_body. intros Hb. exists [nl].
  by apply body_after_Some.
Qed.

Lemma newline_fenced_capture patterns s g :
  newline_fenced patterns →
  first_capture patterns s = Some g →
  ∃ a b, s = a ++ g ++ (nl :: fence) ++ b.
Proof.
  induction patterns as [|p ps IH]; simpl; [done|]. intros Hall.
  destruct (search p s) as [[[g' from] rest]|] eqn:Hsr.
  - intros [= ->]. apply search_Some in Hsr as (pre & -> & Hat & _).
    destruct (newline_fence_shape p from g rest) as [o ->];
      [apply Hall; set_solver|done|].
    exists (pre ++ fence ++ o), rest. by rewrite <-!app_assoc.
  - apply IH. intros q Hq. apply Hall. set_solver.
Qed.

(** A fence opened with a tag the pattern lets through. *)
Lemma match_at_accepted tag t body post :
  accepts tag t →
  contains (nl :: fence) body = false →
  match_at (tagged_fence tag)
    (fence ++ t ++ [nl] ++ body ++ [nl] ++ fence ++ post)
  = Some (body, post).
Proof.
  intros Hacc Hbody. unfold match_at, tagged_fence.
  rewrite mt_Seq, mt_Chars, startswith_app, drop_app_length, mt_Seq.
  rewrite (Hacc (body ++ [nl] ++ fence ++ post)).
  - rewrite mt_Seq, mt_Chars.
    change (nl :: body ++ [nl] ++ fence ++ post)
      with ([nl] ++ body ++ (nl :: fence) ++ post).
    rewrite startswith_app, drop_app_length, captured_body.
    by apply find_closer.
  - intros s' cap Hs'. by rewrite mt_Seq, mt_Chars, Hs'.
Qed.

Lemma no_match_before tag pre rest a1 a2 :
  rejects_backquote tag →
  contains fence pre = false → pre = a1 ++ a2 → a2 ≠ [] →
  match_at (tagged_fence tag) (a2 ++ fence ++ rest) = None.
Proof.
  intros Htag Hpre%contains_false -> Hne. unfold match_at, tagged_fence.
  rewrite mt_Seq, mt_Chars.
  destruct (startswith fence (a2 ++ fence ++ rest)) eqn:Hf; [|done].
  assert (Hq : ∃ s, drop (length fence) (a2 ++ fence ++ rest) = 96 :: s).
  { apply startswith_true in Hf as [r Hr]. rewrite fence_chars in *.
    destruct a2 as [|x [|y [|z a2]]]; simplify_eq/=; [by eexists..|].
    destruct Hpre. apply substring_of_app_l. by exists [], a2. }
  destruct Hq as [s ->]. rewrite mt_Seq. cbn [mt]. by rewrite Htag.
Qed.

Lemma first_capture_accepted tag patterns pre t body post :
  accepts tag t → rejects_backquote tag →
  contains fence pre = false →
  contains (nl :: fence) body = false →
  first_capture (tagged_fence tag :: patterns)
    (pre ++ fence ++ t ++ [nl] ++ body ++ [nl] ++ fence ++ post)
  = Some body.
Proof.
  intros Hacc Hrej Hpre Hbody. simpl.
  rewrite (search_here _ pre _ body post); [done| |].
  - by apply match_at_accepted.
  - intros a1 a2 Ha Hne. by eapply no_match_before.
Qed.

(** The tags of the four extractors. *)
Ltac eval_lit :=
  repeat match goal with
         | |- context [lit ?s] =>
             let v := eval vm_compute in (lit s) in change (lit s) with v
         end.

Ltac tag_through :=
  intros rest k Hk; eval_lit; cbn;
  destruct (k (nl :: rest) None); rewrite ?Hk by done; done.

Lemma terraform_tags t :
  t ∈ [lit "terraform"; lit "hcl"; []] →
  accepts (Alt (Chars (lit "terraform")) (Chars (lit "hcl"))) t.
Proof.
  rewrite !elem_of_cons, elem_of_nil. intros [->|[->|[->|[]]]]; tag_through.
Qed.

Lemma yaml_tags t :
  t ∈ [lit "yaml"; lit "yml"; []] →
  accepts (Alt (Chars (lit "yaml")) (Chars (lit "yml"))) t.
Proof.
  rewrite !elem_of_cons, elem_of_nil. intros [->|[->|[->|[]]]]; tag_through.
Qed.

Lemma dockerfile_tags t :
  t ∈ [lit "dockerfile"; lit "docker"; []] →
  accepts (Alt (Chars (lit "dockerfile")) (Chars (lit "docker"))) t.
Proof.
  rewrite !elem_of_cons, elem_of_nil. intros [->|[->|[->|[]]]]; tag_through.
Qed.

Lemma script_tags t :
  t ∈ [lit "bash"; lit "sh"; lit "shell"; []] →
  accepts (Alt (Chars (lit "bash"))
             (Alt (Chars (lit "sh")) (Chars (lit "shell")))) t.
Proof.
  rewrite !elem_of_cons, elem_of_nil.
  intros [->|[->|[->|[->|[]]]]]; tag_through.
Qed.

Lemma letters_reject_backquote tag :
  tag ∈ [ Alt (Chars (lit "terraform")) (Chars (lit "hcl"));
          Alt (Chars (lit "yaml")) (Chars (lit "yml"));
          Alt (Chars (lit "dockerfile")) (Chars (lit "docker"));
          Alt (Chars (lit "bash"))
            (Alt (Chars (lit "sh")) (Chars (lit "shell"))) ] →
  rejects_backquote tag.
Proof.
  rewrite !elem_of_cons, elem_of_nil.
  intros [->|[->|[->|[->|[]]]]] s k; eval_lit; reflexivity.
Qed.

Lemma extract_accepted tag patterns pre t body post :
  accepts tag t → rejects_backquote tag →
  contains fence pre = false →
  contains (nl :: fence) body = false →
  extract_with (tagged_fence tag :: patterns)
    (pre ++ fence ++ t ++ [nl] ++ body ++ [nl] ++ fence ++ post)
  = Ok (strip body).
Proof.
  intros Hacc Hrej Hpre Hbody.
  by rewrite extract_with_capture, first_capture_accepted.
Qed.

(** The workflow extractor returns the trimmed body of the first fence
    opened with [yaml], [yml] or no tag, when the text before it holds no
    fence and the body no newline followed by a fence. *)
Theorem extract_yaml_fence pre t body post :
  t ∈ [lit "yaml"; lit "yml"; []] →
  contains fence pre = false →
  contains (nl :: fence) body = false →
  _extract_yaml_content
    (pre ++ fence ++ t ++ [nl] ++ body ++ [nl] ++ fence ++ post)
  = Ok (strip body).
Proof.
  intros Ht Hpre Hbody. apply extract_accepted; [|..|done|done].
  - by apply yaml_tags.
  - apply letters_reject_backquote. set_solver.
Qed.

Lemma extract_yaml_fence_witness :
  _extract_yaml_content
    (lit "Here is the workflow:" ++ [nl] ++ fence ++ lit "yml" ++ [nl] ++
     lit "name: deploy" ++ [nl] ++ fence ++ [nl] ++ lit "Done.")
  = Ok (lit "name: deploy").
Proof.
  apply (extract_yaml_fence (lit "Here is the workflow:" ++ [nl]) (lit "yml")
           (lit "name: deploy") ([nl] ++ lit "Done."));
    [apply list_elem_of_further, list_elem_of_here|reflexivity..].
Defined.

(** The Dockerfile extractor returns the trimmed body of the first fence
    opened with [dockerfile], [docker] or no tag, under the same
    conditions. *)
Theorem extract_dockerfile_fence pre t body post :
  t ∈ [lit "dockerfile"; lit "docker"; []] →
  contains fence pre = false →
  contains (nl :: fence) body = false →
  _extract_dockerfile_content
    (pre ++ fence ++ t ++ [nl] ++ body ++ [nl] ++ fence ++ post)
  = Ok (strip body).
Proof.
  intros Ht Hpre Hbody. apply extract_accepted; [|..|done|done].
  - by apply dockerfile_tags.
  - apply letters_reject_backquote. set_solver.
Qed.

Lemma extract_dockerfile_fence_witness :
  _extract_dockerfile_content
    (fence ++ lit "docker" ++ [nl] ++ lit "FROM node:18-slim" ++ [nl] ++
     fence ++ [])
  = Ok (lit "FROM node:18-slim").
Proof.
  apply (extract_dockerfile_fence [] (lit "docker")
           (lit "FROM node:18-slim") []);
    [apply list_elem_of_further, list_elem_of_here|reflexivity..].
Defined.

(** The script extractor returns the trimmed body of the first fence opened
    with [bash], [sh], [shell] or no tag, under the same conditions; [shell]
    is recognised although the alternative [sh] comes before it. *)
Theorem extract_script_fence pre t body post :
  t ∈ [lit "bash"; lit "sh"; lit "shell"; []] →
  contains fence pre = false →
  contains (nl :: fence) body = false →
  _extract_script_content
    (pre ++ fence ++ t ++ [nl] ++ body ++ [nl] ++ fence ++ post)
  = Ok (strip body).
Proof.
  intros Ht Hpre Hbody. apply extract_accepted; [|..|done|done].
  - by apply script_tags.
  - apply letters_reject_backquote. set_solver.
Qed.

Lemma extract_script_fence_witness :
  _extract_script_content
    (lit "Run this:" ++ [nl] ++ fence ++ lit "shell" ++ [nl] ++
     lit "echo hi" ++ [nl] ++ fence ++ [])
  = Ok (lit "echo hi").
Proof.
  apply (extract_script_fence (lit "Run this:" ++ [nl]) (lit "shell")
           (lit "echo hi") []);
    [do 2 apply list_elem_of_further; apply list_elem_of_here
    |reflexivity..].
Defined.

(** The Terraform extractor returns the trimmed body of a fence that has no
    language tag at all. *)
Theorem extract_terraform_untagged pre body post :
  contains fence pre = false →
  contains (nl :: fence) body = false →
  _extract_terraform_code
    (pre ++ fence ++ [nl] ++ body ++ [nl] ++ fence ++ post)
  = Ok (strip body).
Proof.
  intros Hpre Hbody.
  apply (extract_accepted _ _ pre [] body post); [|..|done|done].
  - apply terraform_tags. set_solver.
  - apply letters_reject_backquote. set_solver.
Qed.

Lemma extract_terraform_untagged_witness :
  _extract_terraform_code
    (fence ++ [nl] ++ lit "variable x {}" ++ [nl] ++ fence ++ lit " end")
  = Ok (lit "variable x {}").
Proof.
  apply (extract_terraform_untagged [] (lit "variable x {}") (lit " end"));
    reflexivity.
Defined.

(** *** Without a newline-delimited fence *)

Lemma sibling_patterns_newline_fenced patterns :
  patterns ∈ [yaml_patterns; dockerfile_patterns; script_patterns] →
  newline_fenced patterns.
Proof.
  rewrite !elem_of_cons, elem_of_nil. intros [->|[->|[->|[]]]] p;
    unfold yaml_patterns, dockerfile_patterns, script_patterns;
    rewrite !elem_of_cons, elem_of_nil; intros [->|[->|[]]];
    (by left) || (right; by eexists).
Qed.

Lemma newline_fenced_needs_closer patterns s :
  newline_fenced patterns →
  contains (nl :: fence) s = false →
  first_capture patterns s = None.
Proof.
  intros Hp Hs%contains_false.
  destruct (first_capture patterns s) as [g|] eqn:Hg; [|done].
  destruct (newline_fenced_capture _ _ _ Hp Hg) as (a & b & ->).
  destruct Hs. exists (a ++ g), b. by rewrite <-!app_assoc.
Qed.

Lemma siblings_need_newline_fence_aux response :
  contains (nl :: fence) response = false →
  _extract_yaml_content response = Ok (strip response) ∧
  _extract_dockerfile_content response = Ok (strip response) ∧
  _extract_script_content response = Ok (strip response).
Proof.
  intros Hr.
  unfold _extract_yaml_content, _extract_dockerfile_content,
    _extract_script_content.
  rewrite !extract_with_capture.
  rewrite !newline_fenced_needs_closer;
    try done; apply sibling_patterns_newline_fenced; set_solver.
Qed.

(** The workflow, Dockerfile and script extractors know no inline fence: a
    response in which no fence follows a newline is returned whole, trimmed,
    with whatever fence markers it holds. *)
Theorem siblings_need_newline_fence response :
  contains (nl :: fence) response = false →
  _extract_yaml_content response = Ok (strip response) ∧
  _extract_dockerfile_content response = Ok (strip response) ∧
  _extract_script_content response = Ok (strip response).
Proof. apply siblings_need_newline_fence_aux. Qed.

Lemma siblings_need_newline_fence_witness :
  _extract_yaml_content (fence ++ lit "yaml name: x" ++ fence)
  = Ok (fence ++ lit "yaml name: x" ++ fence) ∧
  _extract_dockerfile_content (fence ++ lit "yaml name: x" ++ fence)
  = Ok (fence ++ lit "yaml name: x" ++ fence) ∧
  _extract_script_content (fence ++ lit "yaml name: x" ++ fence)
  = Ok (fence ++ lit "yaml name: x" ++ fence).
Proof.
  apply (siblings_need_newline_fence (fence ++ lit "yaml name: x" ++ fence)).
  reflexivity.
Defined.

(** *** What every extractor returns *)

Lemma extract_with_trimmed patterns response r :
  extract_with patterns response = Ok r →
  strip r = r ∧
  (∀ c t, r = c :: t → isspace c = false) ∧
  (∀ c t, r = t ++ [c] → isspace c = false).
Proof.
  rewrite extract_with_capture. intros [= <-].
  split; [apply strip_idemp|apply strip_ends].
Qed.

(** Whatever the response, the text an extractor returns neither starts nor
    ends with a blank character, and trimming it again changes nothing. *)
Theorem extractors_return_trimmed response r :
  _extract_terraform_code response = Ok r ∨
  _extract_yaml_content response = Ok r ∨
  _extract_dockerfile_content response = Ok r ∨
  _extract_script_content response = Ok r →
  strip r = r ∧
  (∀ c t, r = c :: t → isspace c = false) ∧
  (∀ c t, r = t ++ [c] → isspace c = false).
Proof. intros [H|[H|[H|H]]]; by eapply extract_with_trimmed. Qed.

Lemma extractors_return_trimmed_witness :
  strip (lit "a b") = lit "a b" ∧
  (∀ c t, lit "a b" = c :: t → isspace c = false) ∧
  (∀ c t, lit "a b" = t ++ [c] → isspace c = false).
Proof.
  apply (extractors_return_trimmed
           ([nl] ++ fence ++ lit "yaml" ++ [nl] ++ lit "  a b " ++ [nl] ++
            fence)).
  right; left. reflexivity.
Defined.

(** What the workflow, Dockerfile and script extractors return is a
    contiguous piece of the response. *)
Theorem siblings_return_substring response r :
  _extract_yaml_content response = Ok r ∨
  _extract_dockerfile_content response = Ok r ∨
  _extract_script_content response = Ok r →
  substring_of r response.
Proof.
  assert (Hgen : ∀ patterns, newline_fenced patterns →
            extract_with patterns response = Ok r → substring_of r response).
  { intros patterns Hp. rewrite extract_with_capture.
    destruct (first_capture patterns response) as [g|] eqn:Hg;
      simpl; intros [= <-]; [|apply strip_substring].
    eapply substring_of_trans; [apply strip_substring|].
    destruct (newline_fenced_capture _ _ _ Hp Hg) as (a & b & ->).
    by eexists _, _. }
  intros [H|[H|H]]; eapply Hgen; try exact H;
    apply sibling_patterns_newline_fenced; set_solver.
Qed.

Lemma siblings_return_substring_witness :
  substring_of (lit "echo hi")
    (lit "Run:" ++ [nl] ++ fence ++ lit "sh" ++ [nl] ++ lit "echo hi" ++
     [nl] ++ fence).
Proof.
  apply (siblings_return_substring _ (lit "echo hi")).
  right; right. reflexivity.
Defined.

(** *** The inline fence and blank responses *)

(** Before a fence, in text that holds no fence and does not end with a
    backquote, no fence starts. *)
Lemma fence_not_before a rest :
  a ≠ [] → last a ≠ Some 96 → contains fence a = false →
  startswith fence (a ++ fence ++ rest) = false.
Proof.
  intros Hne Hlast Ha%contains_false.
  destruct (startswith _ _) eqn:Hp; [|done].
  apply startswith_true in Hp as [r Hr]. rewrite fence_chars in *.
  destruct a as [|x [|y [|z a]]]; simplify_eq/=.
  destruct Ha. by exists [], a.
Qed.

Lemma last_suffix (a1 a2 : str) : a2 ≠ [] → last (a1 ++ a2) = last a2.
Proof.
  intros Hne. destruct a2 as [|x a2 _] using rev_ind; [done|].
  by rewrite app_assoc, !last_snoc.
Qed.

Lemma contains_suffix p a1 a2 :
  contains p (a1 ++ a2) = false → contains p a2 = false.
Proof.
  rewrite !contains_false. intros Hs Ha. apply Hs.
  by apply substring_of_app_l.
Qed.

(** When no fence follows a newline anywhere in the response, the Terraform
    extractor falls back on the inline pattern: it returns, trimmed, the text
    between the first two fences, given that neither that text nor the text
    before holds a fence or ends with a backquote. *)
Theorem extract_inline_fence pre c post :
  contains (nl :: fence) (pre ++ fence ++ c ++ fence ++ post) = false →
  contains fence pre = false → last pre ≠ Some 96 →
  contains fence c = false → last c ≠ Some 96 →
  _extract_terraform_code (pre ++ fence ++ c ++ fence ++ post)
  = Ok (strip c).
Proof.
  intros Hnl Hpre Hlpre Hc Hlc.
  assert (Hs : search inline_fence (pre ++ fence ++ c ++ fence ++ post)
               = Some (c, fence ++ c ++ fence ++ post, post)).
  { apply search_here.
    - rewrite match_at_inline, startswith_app, drop_app_length.
      apply find_sub_here; [|done]. intros a1 a2 -> Hne.
      apply fence_not_before; [done|by rewrite <-(last_suffix a1)|].
      by eapply contains_suffix.
    - intros a1 a2 -> Hne. rewrite match_at_inline.
      rewrite fence_not_before;
        [done..|by rewrite <-(last_suffix a1)|by eapply contains_suffix]. }
  unfold _extract_terraform_code. rewrite extract_with_capture.
  unfold code_patterns. cbn [first_capture].
  assert (Hnone : ∀ p, p = plain_fence ∨ (∃ tag, p = tagged_fence tag) →
            search p (pre ++ fence ++ c ++ fence ++ post) = None).
  { intros p Hp.
    destruct (search p (pre ++ fence ++ c ++ fence ++ post))
      as [[[g from] rest]|] eqn:Hsr; [|done].
    assert (Hcap : first_capture [p] (pre ++ fence ++ c ++ fence ++ post)
                   = Some g) by (cbn [first_capture]; by rewrite Hsr).
    rewrite newline_fenced_needs_closer in Hcap; [done| |done].
    intros q ->%list_elem_of_singleton. done. }
  rewrite (Hnone (tagged_fence _)) by (right; by eexists).
  rewrite (Hnone plain_fence) by (by left).
  by rewrite Hs.
Qed.

Lemma extract_inline_fence_witness :
  _extract_terraform_code
    (lit "Use " ++ fence ++ lit " terraform init " ++ fence ++ lit " first.")
  = Ok (lit "terraform init").
Proof.
  apply (extract_inline_fence (lit "Use ") (lit " terraform init ")
           (lit " first.")); (reflexivity || discriminate).
Defined.

Lemma blank_has_no_fence s :
  forallb isspace s = true → contains fence s = false.
Proof.
  intros Hs. apply contains_false. intros (a & b & ->).
  rewrite !forallb_app in Hs. by repeat (apply andb_prop in Hs as [? Hs]).
Qed.

Lemma strip_blank s : forallb isspace s = true → strip s = [].
Proof.
  intros Hs. unfold strip.
  assert (Hl : lstrip s = []).
  { induction s as [|c s IH]; simpl in *; [done|].
    apply andb_prop in Hs as [-> Hs]. by apply IH. }
  by rewrite Hl.
Qed.

(** On an empty response, or one made of blank characters only, every
    extractor returns the empty string. *)
Theorem extractors_on_blank response :
  forallb isspace response = true →
  _extract_terraform_code response = Ok [] ∧
  _extract_yaml_content response = Ok [] ∧
  _extract_dockerfile_content response = Ok [] ∧
  _extract_script_content response = Ok [].
Proof.
  intros Hs. pose proof (blank_has_no_fence _ Hs) as Hf.
  destruct (siblings_need_newline_fence_aux response) as (Hy & Hd & Hsc);
    [by apply fence_free_closer|].
  rewrite fence_free_extract, Hy, Hd, Hsc by done.
  by rewrite strip_blank.
Qed.

Lemma extractors_on_blank_witness :
  _extract_terraform_code [32; nl; 9] = Ok [] ∧
  _extract_yaml_content [32; nl; 9] = Ok [] ∧
  _extract_dockerfile_content [32; nl; 9] = Ok [] ∧
  _extract_script_content [32; nl; 9] = Ok [].
Proof. apply (extractors_on_blank [32; nl; 9]). reflexivity. Defined.

(** ** More on the manifest splitter *)

Lemma find_sub_before_free sep s a b :
  sep ≠ [] → find_sub sep s = Some (a, b) → ¬ substring_of sep a.
Proof.
  intros Hsep Hf (x & y & ->).
  pose proof (find_sub_first _ _ _ _ Hf x (sep ++ y) eq_refl) as Hno.
  rewrite <-app_assoc, startswith_app in Hno.
  destruct sep; [done|]. by specialize (Hno ltac:(done)).
Qed.

Lemma split_from_no_sep n sep s d :
  sep ≠ [] → (length s ≤ n)%nat →
  d ∈ split_from n sep s → ¬ substring_of sep d.
Proof.
  intros Hsep. revert s. induction n as [|n IH]; intros s Hn.
  - destruct s; [|simpl in Hn; lia]. destruct sep as [|c sep]; [done|].
    simpl. intros ->%list_elem_of_singleton (a & b & Hab).
    by destruct a.
  - cbn [split_from].
    destruct (find_sub sep s) as [[a b]|] eqn:Hf.
    + intros [->|Hd]%elem_of_cons.
      * by eapply find_sub_before_free.
      * apply IH in Hd; [done|].
        pose proof (find_sub_shorter _ _ _ _ Hsep Hf). lia.
    + intros ->%list_elem_of_singleton. by apply find_sub_None.
Qed.

Section MoreManifests.
Context `{Library}.

(** No value of the mapping holds three dashes in a row: a document is cut
    wherever they occur, also inside a line. *)
Theorem manifests_hold_no_separator response m k v :
  _parse_k8s_manifests response = Ok m →
  m !! k = Some v →
  contains (lit "---") v = false.
Proof.
  rewrite parse_fold. intros [= <-] [Hm|[Hv _]]%fold_entry; [done|].
  unfold fragments in Hv. apply list_elem_of_filter in Hv as [_ Hv].
  apply list_elem_of_fmap in Hv as (piece & -> & Hp).
  apply contains_false. intros Hs.
  eapply (split_from_no_sep _ (lit "---")); [done|reflexivity|exact Hp|].
  eapply substring_of_trans; [done|apply strip_substring].
Qed.

(** A response whose pieces between separators are all blank, the empty
    response among them, gives the empty mapping. *)
Theorem manifests_of_blank_fragments response :
  (∀ d, d ∈ split (lit "---") response → forallb isspace d = true) →
  _parse_k8s_manifests response = Ok ∅.
Proof.
  intros Hblank. rewrite parse_fold. unfold fragments.
  assert (Hnil : ∀ docs : list str,
            (∀ d, d ∈ docs → forallb isspace d = true) →
            filter (fun doc => doc ≠ []) (strip <$> docs) = []).
  { induction docs as [|d docs IH]; intros Hall; [done|].
    rewrite fmap_cons, filter_cons_False.
    - apply IH. intros d' Hd'. apply Hall. set_solver.
    - rewrite strip_blank; [naive_solver|]. apply Hall. set_solver. }
  by rewrite Hnil.
Qed.

(** A fragment on which loading raises and which holds the word
    [Deployment] is stored under [deployment] and under no other key,
    whatever other marker words it holds; it is the value of that key unless
    a later fragment takes the key. *)
Theorem deployment_marker_first response docs1 d docs2 e :
  split (lit "---") response = docs1 ++ d :: docs2 →
  strip d ≠ [] →
  safe_load (strip d) = Raise e →
  contains (lit "Deployment") (strip d) = true →
  (∀ d', d' ∈ docs2 → key_of (strip d') ≠ Some (KStr (lit "deployment"))) →
  ∃ m, _parse_k8s_manifests response = Ok m ∧
       ∀ k, m !! k = Some (strip d) ↔ k = KStr (lit "deployment").
Proof.
  intros Hsplit Hne Hload Hdep Hlater.
  assert (Hkey : key_of (strip d) = Some (KStr (lit "deployment"))).
  { unfold key_of, declared_key, marker_key. by rewrite Hload, Hdep. }
  eexists. split; [apply parse_fold|]. intros k. split.
  - intros [Hm|[_ Hk]]%fold_entry; [done|congruence].
  - intros ->. unfold fragments. rewrite Hsplit, fmap_app, fmap_cons.
    rewrite filter_app, filter_cons_True by done.
    apply fold_last; [done|].
    intros d' [_ Hd']%list_elem_of_filter.
    apply list_elem_of_fmap in Hd' as (d0 & -> & Hd0). by apply Hlater.
Qed.

(** A fragment that loads as a mapping whose [kind] is neither a string nor
    bytes is named by the marker search: any key it is stored under is the
    one its first marker word gives, and without a marker word it is not in
    the mapping. *)
Theorem kind_without_lower response doc items v e m :
  safe_load doc = Ok (YMap items) →
  py_getitem (YMap items) kind = Ok v →
  py_lower v = Raise e →
  _parse_k8s_manifests response = Ok m →
  ∀ k, m !! k = Some doc → marker_key doc = Some k.
Proof.
  intros Hload Hget Hlow. rewrite parse_fold. intros [= <-] k.
  intros [Hm|[_ Hk]]%fold_entry; [done|].
  unfold key_of, declared_key in Hk.
  assert (Hin : py_in kind (YMap items) = Ok true).
  { simpl in *. f_equal. apply existsb_exists.
    destruct (List.find _ items) as [kv|] eqn:Hfind; [|done].
    exists kv. apply find_some in Hfind. naive_solver. }
  assert (Ht : truth (YMap items) = true).
  { destruct items; [by simpl in Hget|done]. }
  by rewrite Hload, !bind_Ok, Ht, Hin, !bind_Ok, Hget, bind_Ok, Hlow in Hk.
Qed.

End MoreManifests.

Lemma manifests_hold_no_separator_witness :
  contains (lit "---") (lit "kind: Service") = false.
Proof.
  eapply (@manifests_hold_no_separator sample_library
            (lit "kind: Deployment" ++ [nl] ++ lit "---" ++ [nl] ++
             lit "kind: Service")
            _ (KStr (lit "service")) (lit "kind: Service"));
    reflexivity.
Defined.

Lemma manifests_of_blank_fragments_witness :
  @_parse_k8s_manifests sample_library ([nl] ++ lit "---" ++ [nl] ++ lit "--- ")
  = Ok ∅.
Proof.
  apply (@manifests_of_blank_fragments sample_library).
  intros d Hd. vm_compute in Hd.
  repeat (apply elem_of_cons in Hd as [->|Hd]); [reflexivity..|].
  by apply elem_of_nil in Hd.
Defined.

Lemma deployment_marker_first_witness :
  ∃ m, @_parse_k8s_manifests more_library (lit "Deployment: [ Service") = Ok m ∧
       ∀ k, m !! k = Some (lit "Deployment: [ Service")
            ↔ k = KStr (lit "deployment").
Proof.
  apply (@deployment_marker_first more_library _ []
           (lit "Deployment: [ Service") [] YAMLError);
    [reflexivity|discriminate|reflexivity|reflexivity|].
  intros d' Hd'. by apply elem_of_nil in Hd'.
Defined.

Lemma kind_without_lower_witness :
  @_parse_k8s_manifests more_library (lit "kind: 5 # Deployment")
  = Ok {[ KStr (lit "deployment") := lit "kind: 5 # Deployment" ]} ∧
  marker_key (lit "kind: 5 # Deployment") = Some (KStr (lit "deployment")).
Proof.
  split; [reflexivity|].
  eapply (@kind_without_lower more_library (lit "kind: 5 # Deployment")
            (lit "kind: 5 # Deployment")
            [(YStr (lit "kind"), YInt 5)] (YInt 5) AttributeError);
    reflexivity.
Defined.

(** ** The order of the dictionary *)

Section ManifestOrder.
Context `{Library}.

Lemma first_seen_elem keys seen k :
  k ∈ first_seen keys seen ↔ k ∈ keys ∧ k ∉ seen.
Proof.
  revert seen. induction keys as [|k' keys IH]; intros seen; simpl.
  - set_solver.
  - destruct (decide (k' ∈ seen)) as [Hin|Hout].
    + rewrite IH. set_solver.
    + rewrite !elem_of_cons, IH.
      destruct (decide (k = k')) as [->|Hne]; set_solver.
Qed.

Lemma first_seen_NoDup keys seen : NoDup (first_seen keys seen).
Proof.
  revert seen. induction keys as [|k keys IH]; intros seen; simpl.
  - apply NoDup_nil. done.
  - destruct (decide (k ∈ seen)); [apply IH|].
    apply NoDup_cons. split; [|apply IH].
    rewrite first_seen_elem. set_solver.
Qed.

Lemma insertion_order_first_seen docs m :
  insertion_order docs m
  = first_seen (omap key_of (filter (fun doc => doc ≠ []) (strip <$> docs)))
               (dom m).
Proof.
  revert m. induction docs as [|d docs IH]; intros m; simpl; [done|].
  destruct (strip d) as [|c t] eqn:Hd.
  - rewrite filter_cons_False by naive_solver. apply IH.
  - rewrite filter_cons_True by done. rewrite <-Hd, turn_store, IH.
    unfold store. simpl. destruct (key_of (strip d)) as [k|]; simpl.
    + rewrite dom_insert_L. destruct (decide (k ∈ dom m)) as [Hin|Hout].
      * replace (({[k]} ∪ dom m) ∖ dom m) with (∅ : gset pykey) by set_solver.
        rewrite elements_empty. simpl.
        by replace ({[k]} ∪ dom m) with (dom m) by set_solver.
      * replace (({[k]} ∪ dom m) ∖ dom m) with ({[k]} : gset pykey)
          by set_solver.
        by rewrite elements_singleton.
    + replace (dom m ∖ dom m) with (∅ : gset pykey) by set_solver.
      by rewrite elements_empty.
Qed.

Lemma omap_lookup_keys (m : gmap pykey str) names :
  (∀ name, name ∈ names → is_Some (m !! name)) →
  (omap (fun name => pair name <$> m !! name) names).*1 = names.
Proof.
  induction names as [|name names IH]; intros Hall; simpl; [done|].
  destruct (Hall name) as [v Hv]; [apply list_elem_of_here|].
  rewrite Hv. simpl. f_equal. apply IH.
  intros name' Hin. apply Hall. by apply list_elem_of_further.
Qed.

(** The keys of the dictionary, in the order of [items()]: the keys of the
    fragments, each at its first occurrence. *)
Lemma dict_items_keys response :
  (dict_items response (foldl store ∅ (fragments response))).*1
  = first_seen (omap key_of (fragments response)) ∅.
Proof.
  unfold dict_items. rewrite insertion_order_first_seen, dom_empty_L.
  fold (fragments response). apply omap_lookup_keys.
  intros name [Hin _]%first_seen_elem.
  apply elem_of_dom. rewrite fold_dom. set_solver.
Qed.

(** [items()] lists the entries of the dictionary. *)
Lemma dict_items_elem response k v :
  (k, v) ∈ dict_items response (foldl store ∅ (fragments response))
  ↔ foldl store ∅ (fragments response) !! k = Some v.
Proof.
  unfold dict_items. rewrite list_elem_of_omap. split.
  - intros (name & _ & Hname).
    destruct (foldl store ∅ (fragments response) !! name) as [v'|] eqn:Hv;
      simplify_eq/=. done.
  - intros Hk. exists k. split; [|by rewrite Hk].
    rewrite insertion_order_first_seen, dom_empty_L.
    fold (fragments response). apply first_seen_elem. split; [|set_solver].
    assert (k ∈ dom (foldl store ∅ (fragments response))) as Hdom
      by (apply elem_of_dom; eauto).
    rewrite fold_dom in Hdom. set_solver.
Qed.

End ManifestOrder.

(** ** More on the orchestration *)

Lemma files_written_app t evs :
  files_written (t ++ evs) = files_written t ++ files_written evs.
Proof. apply omap_app. Qed.

Lemma files_written_manifest_events items :
  files_written (manifest_events items)
  = (fun item : pykey * str => (ManifestFile (format_key item.1), item.2))
      <$> items.
Proof.
  unfold manifest_events.
  induction items as [|item items IH]; [done|].
  rewrite bind_cons, files_written_app, IH. done.
Qed.

Lemma yields_run {A} (c : M A) t r evs :
  yields c t r evs → c t = (r, t ++ evs).
Proof. done. Qed.

Section PipelineOutcomes.
Context `{Library} `{Endpoint} (P : prompts).

Ltac count_calls :=
  rewrite ?calls_made_app, ?prompts_sent_app, ?manifest_events_no_call;
  simpl length; rewrite ?Nat.add_0_r, <-?Nat.add_assoc; simpl Nat.add.

Ltac head_of c :=
  lazymatch c with
  | ?f _ => head_of f
  | _ => c
  end.

Ltac run :=
  lazymatch goal with
  | |- yields (mret _) _ _ _ => apply yields_ret
  | |- yields (emit _) _ _ _ => apply yields_emit
  | |- yields (pure (_parse_k8s_manifests _)) _ _ _ => apply yields_parse
  | |- yields (pure _) _ _ _ => apply yields_extract
  | |- yields (save_manifests _) _ _ _ => apply save_manifests_ok
  | |- yields (_call_gemini_api _) _ (Ok _) _ =>
      eapply call_ok; count_calls; eassumption
  | |- yields (_call_gemini_api _) _ (Raise _) _ =>
      eapply call_raise; count_calls; eassumption
  | |- yields (logged _ _) _ (Ok _) _ => apply yields_logged_ok; run
  | |- yields (logged _ _) _ (Raise _) _ => eapply yields_logged_raise; run
  | |- yields (_ ≫= _) _ (Ok _) _ =>
      eapply yields_bind_ok; [run|cbv beta; run]
  | |- yields (_ ≫= _) _ (Raise _) _ =>
      first [ eapply yields_bind_raise; run
            | eapply yields_bind_ok; [run|cbv beta; run] ]
  | |- yields ?c _ _ _ => let h := head_of c in unfold h; run
  end.

Ltac written :=
  rewrite ?files_written_app, ?files_written_manifest_events; simpl;
  rewrite ?app_nil_r.

(** When every call of the sequence returns and the run returns normally,
    the endpoint has been sent the eight prompts in order, each once, and
    the files written are, in this order, the three Terraform files, one
    file per entry of the manifest dictionary in the order of [items()],
    the workflow, the Dockerfile and the two scripts, each holding what its
    own extractor returns on the response to its prompt. *)
Theorem pipeline_success texts t0 t' :
  (∀ i q, sequence P !! i = Some q →
          generate_content (calls_made t0 + i) q = Ok (texts i)) →
  run_full_pipeline P t0 = (Ok (), t') →
  ∃ evs c1 c2 cv m cw cd cs cp,
    t' = t0 ++ evs ∧
    prompts_sent evs = sequence P ∧
    _extract_terraform_code (texts 0%nat) = Ok c1 ∧
    _extract_terraform_code (texts 1%nat) = Ok c2 ∧
    _extract_terraform_code (texts 2%nat) = Ok cv ∧
    _parse_k8s_manifests (texts 3%nat) = Ok m ∧
    _extract_yaml_content (texts 4%nat) = Ok cw ∧
    _extract_dockerfile_content (texts 5%nat) = Ok cd ∧
    _extract_script_content (texts 6%nat) = Ok cs ∧
    _extract_script_content (texts 7%nat) = Ok cp ∧
    files_written evs =
      [ (Stage1Main, c1); (Stage2Main, c2); (Stage1Variables, cv) ] ++
      ((fun item : pykey * str => (ManifestFile (format_key item.1), item.2))
         <$> dict_items (texts 3%nat) m) ++
      [ (WorkflowFile, cw); (DockerfilePath, cd);
        (ScriptFile "setup", cs); (ScriptFile "deploy", cp) ].
Proof.
  intros Hall Hret.
  pose proof (Hall 0%nat _ eq_refl) as Hc0.
  pose proof (Hall 1%nat _ eq_refl) as Hc1.
  pose proof (Hall 2%nat _ eq_refl) as Hc2.
  pose proof (Hall 3%nat _ eq_refl) as Hc3.
  pose proof (Hall 4%nat _ eq_refl) as Hc4.
  pose proof (Hall 5%nat _ eq_refl) as Hc5.
  pose proof (Hall 6%nat _ eq_refl) as Hc6.
  pose proof (Hall 7%nat _ eq_refl) as Hc7.
  rewrite ?Nat.add_0_r in *.
  assert (Hrun : ∃ evs, yields (run_full_pipeline P) t0 (Ok ()) evs ∧
    prompts_sent evs = sequence P ∧
    files_written evs =
      [ (Stage1Main,
         strip (default (texts 0%nat)
                  (first_capture code_patterns (texts 0%nat))));
        (Stage2Main,
         strip (default (texts 1%nat)
                  (first_capture code_patterns (texts 1%nat))));
        (Stage1Variables,
         strip (default (texts 2%nat)
                  (first_capture code_patterns (texts 2%nat)))) ] ++
      ((fun item : pykey * str => (ManifestFile (format_key item.1), item.2))
         <$> dict_items (texts 3%nat)
               (foldl store ∅ (fragments (texts 3%nat)))) ++
      [ (WorkflowFile,
         strip (default (texts 4%nat)
                  (first_capture yaml_patterns (texts 4%nat))));
        (DockerfilePath,
         strip (default (texts 5%nat)
                  (first_capture dockerfile_patterns (texts 5%nat))));
        (ScriptFile "setup",
         strip (default (texts 6%nat)
                  (first_capture script_patterns (texts 6%nat))));
        (ScriptFile "deploy",
         strip (default (texts 7%nat)
                  (first_capture script_patterns (texts 7%nat)))) ]).
  { eexists. split_and!; [run| |].
    - by rewrite ?prompts_sent_app, ?manifest_events_no_call.
    - by written. }
  destruct Hrun as (evs & Hrun & Hsent & Hfiles).
  exists evs. do 8 eexists.
  split_and!; [unfold yields in Hrun; congruence|exact Hsent|..|exact Hfiles];
    (apply extract_with_capture || apply parse_fold).
Qed.

(** When the connection test fails, [main] returns normally: the exception
    is logged and swallowed, a line is printed, no generation prompt is sent
    and no file is written. *)
Theorem connection_failure_is_swallowed t e :
  generate_content (calls_made t) test_prompt = Raise e →
  main P t
  = (Ok (), t ++ [ Call test_prompt;
                   LogError "Gemini API call failed" e;
                   LogError "Gemini API test failed" e;
                   PrintLine "Gemini API connection failed!" ]).
Proof.
  intros Hc. unfold main, mbind, M_bind, test_gemini_connection.
  rewrite (call_raise _ _ _ Hc). unfold emit.
  by rewrite <-!app_assoc.
Qed.

(** When the first Terraform call returns and the second raises, the run
    fails with that exception and [terraform/Stage1/main.tf] stays written,
    with the code extracted from the first response: nothing is rolled
    back. *)
Theorem stage2_failure_keeps_stage1 text1 e t0 :
  generate_content (calls_made t0) (prompt1 P) = Ok text1 →
  generate_content (calls_made t0 + 1) (prompt2 P) = Raise e →
  ∃ evs c1,
    run_full_pipeline P t0 = (Raise e, t0 ++ evs) ∧
    _extract_terraform_code text1 = Ok c1 ∧
    files_written evs = [ (Stage1Main, c1) ].
Proof.
  intros Hc0 Hc1.
  eexists _, _.
  split_and!; [apply yields_run; run|apply extract_with_capture|by written].
Qed.

(** In the script step both calls are made before anything is saved: when
    the call for the deploy script raises, after all the earlier calls have
    returned, no script file is written although the setup script was
    generated. *)
Theorem deploy_failure_writes_no_script texts e t0 :
  (∀ i q, (i < 7)%nat → sequence P !! i = Some q →
          generate_content (calls_made t0 + i) q = Ok (texts i)) →
  generate_content (calls_made t0 + 7) (deploy_prompt P) = Raise e →
  ∃ evs,
    run_full_pipeline P t0 = (Raise e, t0 ++ evs) ∧
    setup_prompt P ∈ prompts_sent evs ∧
    ∀ name content, (ScriptFile name, content) ∉ files_written evs.
Proof.
  intros Hall Hc7.
  pose proof (Hall 0%nat _ ltac:(lia) eq_refl) as Hc0.
  pose proof (Hall 1%nat _ ltac:(lia) eq_refl) as Hc1.
  pose proof (Hall 2%nat _ ltac:(lia) eq_refl) as Hc2.
  pose proof (Hall 3%nat _ ltac:(lia) eq_refl) as Hc3.
  pose proof (Hall 4%nat _ ltac:(lia) eq_refl) as Hc4.
  pose proof (Hall 5%nat _ ltac:(lia) eq_refl) as Hc5.
  pose proof (Hall 6%nat _ ltac:(lia) eq_refl) as Hc6.
  rewrite ?Nat.add_0_r in *.
  eexists. split_and!; [apply yields_run; run| |].
  - rewrite ?prompts_sent_app, ?manifest_events_no_call. simpl.
    do 6 apply list_elem_of_further. apply list_elem_of_here.
  - intros name content. written.
    rewrite !elem_of_cons, elem_of_app, !elem_of_cons, elem_of_nil.
    rewrite list_elem_of_fmap. naive_solver.
Qed.

(** When the manifest step returns a dictionary, the endpoint was sent
    the manifest prompt, once, and answered; the dictionary is what the
    splitter makes of the answer; one file [<key>.yaml] has been written per
    key, in the order in which the keys first occur among the fragments;
    and a file is written with some content exactly when it is the file of
    a key that the dictionary binds to that content. *)
Theorem manifest_files_are_the_entries t m t' :
  generate_kubernetes_manifests P t = (Ok m, t') →
  ∃ text evs,
    generate_content (calls_made t) (manifests_prompt P) = Ok text ∧
    _parse_k8s_manifests text = Ok m ∧
    t' = t ++ evs ∧
    prompts_sent evs = [manifests_prompt P] ∧
    (files_written evs).*1
    = (fun k => ManifestFile (format_key k))
        <$> first_seen (omap key_of (fragments text)) ∅ ∧
    ∀ p content, (p, content) ∈ files_written evs ↔
                 ∃ k, p = ManifestFile (format_key k) ∧ m !! k = Some content.
Proof.
  intros Hret.
  destruct (generate_content (calls_made t) (manifests_prompt P))
    as [text|e] eqn:Hc.
  - assert (Hrun : ∃ evs,
      yields (generate_kubernetes_manifests P) t
        (Ok (foldl store ∅ (fragments text))) evs ∧
      prompts_sent evs = [manifests_prompt P] ∧
      files_written evs =
        (fun item : pykey * str => (ManifestFile (format_key item.1), item.2))
          <$> dict_items text (foldl store ∅ (fragments text))).
    { eexists. split_and!; [run| |].
      - by rewrite ?prompts_sent_app, ?manifest_events_no_call.
      - by written. }
    destruct Hrun as (evs & Hrun & Hsent & Hfiles).
    unfold yields in Hrun. rewrite Hrun in Hret. injection Hret as <- <-.
    exists text, evs. split_and!; [done|apply parse_fold|done..| |].
    + rewrite Hfiles, <-dict_items_keys, <-!list_fmap_compose. done.
    + intros p content. rewrite Hfiles, list_elem_of_fmap. split.
      * intros ([k v] & [= -> ->] & Hkv%dict_items_elem). by exists k.
      * intros (k & -> & Hk). exists (k, content). split; [done|].
        by apply dict_items_elem.
  - assert (Hrun : ∃ evs,
      yields (generate_kubernetes_manifests P) t (Raise e) evs).
    { eexists. run. }
    destruct Hrun as (evs & Hrun).
    unfold yields in Hrun. rewrite Hrun in Hret. discriminate.
Qed.

Ltac ends_with r :=
  exists r; eexists; split_and!;
  [ apply yields_run; run
  | rewrite ?prompts_sent_app, ?manifest_events_no_call; simpl;
    unfold sequence; by eexists
  | by rewrite ?prompts_sent_app, ?manifest_events_no_call
  | first [ done
          | by rewrite ?prompts_sent_app, ?manifest_events_no_call ] ].

Lemma run_outcome t0 :
  ∃ r evs,
    run_full_pipeline P t0 = (r, t0 ++ evs) ∧
    prompts_sent evs `prefix_of` sequence P ∧
    prompts_sent evs ≠ [] ∧
    (r = Ok () → prompts_sent evs = sequence P).
Proof.
  destruct (generate_content (calls_made t0) (prompt1 P))
    as [x0|e] eqn:Hc0; [|ends_with (@Raise () e)].
  destruct (generate_content (calls_made t0 + 1) (prompt2 P))
    as [x1|e] eqn:Hc1; [|ends_with (@Raise () e)].
  destruct (generate_content (calls_made t0 + 2) (variables_prompt P))
    as [x2|e] eqn:Hc2; [|ends_with (@Raise () e)].
  destruct (generate_content (calls_made t0 + 3) (manifests_prompt P))
    as [x3|e] eqn:Hc3; [|ends_with (@Raise () e)].
  destruct (generate_content (calls_made t0 + 4) (workflow_prompt P))
    as [x4|e] eqn:Hc4; [|ends_with (@Raise () e)].
  destruct (generate_content (calls_made t0 + 5) (dockerfile_prompt P))
    as [x5|e] eqn:Hc5; [|ends_with (@Raise () e)].
  destruct (generate_content (calls_made t0 + 6) (setup_prompt P))
    as [x6|e] eqn:Hc6; [|ends_with (@Raise () e)].
  destruct (generate_content (calls_made t0 + 7) (deploy_prompt P))
    as [x7|e] eqn:Hc7; [ends_with (Ok ())|ends_with (@Raise () e)].
Qed.

(** However a run ends, with a return or with an exception, the prompts it
    has sent are the first few of the fixed sequence, in order and each
    once, at least one and at most all eight; and when it has returned
    normally all eight have been sent. *)
Theorem pipeline_sends_a_prefix t0 r t' :
  run_full_pipeline P t0 = (r, t') →
  ∃ evs,
    t' = t0 ++ evs ∧
    prompts_sent evs `prefix_of` sequence P ∧
    prompts_sent evs ≠ [] ∧
    (r = Ok () → prompts_sent evs = sequence P).
Proof.
  intros Hret.
  destruct (run_outcome t0) as (r0 & evs & Hrun & Hpre & Hne & Hall).
  rewrite Hrun in Hret. injection Hret as <- <-. by exists evs.
Qed.

End PipelineOutcomes.

Lemma pipeline_success_witness :
  ∃ evs,
    (@run_full_pipeline sample_library
       (answering (lit "kind: Service" ++ [nl] ++ lit "---" ++ [nl] ++
                   lit "kind: Deployment"))
       sample_prompts []).2
    = [] ++ evs ∧
    prompts_sent evs = sequence sample_prompts ∧
    (files_written evs).*1 =
      [ Stage1Main; Stage2Main; Stage1Variables;
        ManifestFile (lit "service");
        ManifestFile (lit "deployment");
        WorkflowFile; DockerfilePath;
        ScriptFile "setup"; ScriptFile "deploy" ].
Proof.
  destruct (@pipeline_success sample_library
              (answering (lit "kind: Service" ++ [nl] ++ lit "---" ++
                          [nl] ++ lit "kind: Deployment"))
              sample_prompts
              (fun _ => lit "kind: Service" ++ [nl] ++ lit "---" ++
                        [nl] ++ lit "kind: Deployment") []
              (@run_full_pipeline sample_library
                 (answering (lit "kind: Service" ++ [nl] ++ lit "---" ++
                             [nl] ++ lit "kind: Deployment"))
                 sample_prompts []).2)
    as (evs & c1 & c2 & cv & m & cw & cd & cs & cp & Hrun & Hsent & _ & _ &
        _ & Hm & _ & _ & _ & _ & Hfiles).
  - intros i q _. reflexivity.
  - reflexivity.
  - exists evs. split_and!; [done..|].
    rewrite Hfiles. injection Hm as <-. reflexivity.
Defined.

Lemma connection_failure_is_swallowed_witness :
  @main sample_library (failing_from 0) sample_prompts []
  = (Ok (), [ Call test_prompt;
              LogError "Gemini API call failed" (EndpointError 429);
              LogError "Gemini API test failed" (EndpointError 429);
              PrintLine "Gemini API connection failed!" ]).
Proof.
  apply (@connection_failure_is_swallowed sample_library (failing_from 0)
           sample_prompts [] (EndpointError 429)).
  reflexivity.
Defined.

Lemma stage2_failure_keeps_stage1_witness :
  ∃ evs,
    @run_full_pipeline sample_library (failing_from 1) sample_prompts []
    = (Raise (EndpointError 429), [] ++ evs) ∧
    files_written evs = [ (Stage1Main, lit "x = 1") ].
Proof.
  destruct (@stage2_failure_keeps_stage1 sample_library (failing_from 1)
              sample_prompts
              (fence ++ lit "hcl" ++ [nl] ++ lit "x = 1" ++ [nl] ++ fence)
              (EndpointError 429) [])
    as (evs & c1 & Hrun & Hc1 & Hfiles); [reflexivity..|].
  exists evs. split; [done|]. rewrite Hfiles. by injection Hc1 as <-.
Defined.

Lemma deploy_failure_writes_no_script_witness :
  ∃ evs,
    @run_full_pipeline sample_library (failing_from 7) sample_prompts []
    = (Raise (EndpointError 429), [] ++ evs) ∧
    lit "setup script" ∈ prompts_sent evs ∧
    ∀ name content, (ScriptFile name, content) ∉ files_written evs.
Proof.
  apply (@deploy_failure_writes_no_script sample_library (failing_from 7)
           sample_prompts
           (fun _ => fence ++ lit "hcl" ++ [nl] ++ lit "x = 1" ++ [nl] ++
                     fence)
           (EndpointError 429) []).
  - intros i q Hi _.
    do 7 (destruct i as [|i]; [reflexivity|]). lia.
  - reflexivity.
Defined.

Lemma manifest_files_are_the_entries_witness :
  ∃ text evs,
    @generate_content
      (answering (lit "kind: Service" ++ [nl] ++ lit "---" ++ [nl] ++
                  lit "kind: Deployment"))
      (calls_made []) (lit "manifests") = Ok text ∧
    @_parse_k8s_manifests sample_library text
    = Ok (<[ KStr (lit "deployment") := lit "kind: Deployment" ]>
            {[ KStr (lit "service") := lit "kind: Service" ]}) ∧
    (@generate_kubernetes_manifests sample_library
       (answering (lit "kind: Service" ++ [nl] ++ lit "---" ++ [nl] ++
                   lit "kind: Deployment"))
       sample_prompts []).2 = [] ++ evs ∧
    prompts_sent evs = [lit "manifests"] ∧
    (files_written evs).*1
    = (fun k => ManifestFile (format_key k))
        <$> first_seen (omap (@key_of sample_library)
                          (@fragments text)) ∅ ∧
    ∀ p content,
      (p, content) ∈ files_written evs ↔
      ∃ k, p = ManifestFile (format_key k) ∧
           (<[ KStr (lit "deployment") := lit "kind: Deployment" ]>
              {[ KStr (lit "service") := lit "kind: Service" ]}
            : gmap pykey str) !! k = Some content.
Proof.
  apply (@manifest_files_are_the_entries sample_library
           (answering (lit "kind: Service" ++ [nl] ++ lit "---" ++ [nl] ++
                       lit "kind: Deployment"))
           sample_prompts []).
  reflexivity.
Defined.

Lemma pipeline_sends_a_prefix_witness :
  ∃ evs,
    (@run_full_pipeline sample_library (failing_from 3) sample_prompts []).2
    = [] ++ evs ∧
    prompts_sent evs `prefix_of` sequence sample_prompts ∧
    prompts_sent evs ≠ [] ∧
    ((@run_full_pipeline sample_library (failing_from 3) sample_prompts []).1
     = Ok () →
     prompts_sent evs = sequence sample_prompts).
Proof.
  apply (@pipeline_sends_a_prefix sample_library (failing_from 3)
           sample_prompts []).
  reflexivity.
Defined.
